(** * Caesar-cipher decoder and text statistics: a shallow embedding

    The development follows [src/modules/cipher.py] and
    [src/modules/text_analyzer.py].

    - A Python [str] is a list of Unicode code points ([Z], the value of
      [ord]); [chr] is the identity on the code points the program builds
      (see [encrypt_char_range]).
    - Python [int] is [Z]; [%] is [Z.modulo] (the result has the sign of the
      divisor, as in Python).
    - A Python [float] obtained by the true division of two integers is the
      exact rational in lowest terms ([Qred]); float comparison is the
      comparison of these rationals.
    - A raised exception is the [Raise] branch of [result].
    - The Unicode character database behind [str.isalpha], [str.isupper],
      [str.isdigit] and [str.lower] is a parameter ([UnicodeData]); the
      whitespace table of [str.split] and [string.punctuation] are small and
      are written out. *)

From Stdlib Require Import String Ascii.
From Stdlib Require Import ZArith QArith Qreduction List Lia Bool.
From Stdlib Require Import Sorted Permutation.
Import ListNotations.
Open Scope Z_scope.

(** ** Python values and built-ins *)

Module Py.

Definition codepoint := Z.
Definition str := list codepoint.

(** A string literal of the source, as its code points (ASCII literals). *)
Definition lit (s : string) : str :=
  map (fun a => Z.of_N (N_of_ascii a)) (list_ascii_of_string s).

Inductive exn := ZeroDivisionError | ValueError | IndexError.

Inductive result (A : Type) : Type :=
| Ok (a : A)
| Raise (e : exn).
Arguments Ok {A} a.
Arguments Raise {A} e.

Definition bind {A B} (m : result A) (k : A -> result B) : result B :=
  match m with
  | Ok a => k a
  | Raise e => Raise e
  end.

Definition len {A} (l : list A) : Z := Z.of_nat (length l).

(** [sum(iterable)] over integers. *)
Definition sum (l : list Z) : Z := fold_left Z.add l 0.

(** [a / b] on integers: [ZeroDivisionError] when [b] is zero. *)
Definition truediv (a b : Z) : result Q :=
  if b =? 0 then Raise ZeroDivisionError
  else Ok (Qred (inject_Z a / inject_Z b)).

(** [x > y] on floats. *)
Definition gt (x y : Q) : bool := negb (Qle_bool x y).

Definition str_eqb (a b : str) : bool :=
  if list_eq_dec Z.eq_dec a b then true else false.

(** [ch in s] for a one-character [ch]. *)
Definition char_in (c : codepoint) (s : str) : bool := existsb (Z.eqb c) s.

(** [w in S] for a set of strings. *)
Definition str_in (w : str) (S : list str) : bool := existsb (str_eqb w) S.

(** [string.punctuation]. *)
Definition punctuation : str :=
  lit "!" ++ [34] ++ lit "#$%&'()*+,-./:;<=>?@[\]^_`{|}~".

(** The code points CPython's [str.split()] treats as whitespace
    ([Py_UNICODE_ISSPACE]). *)
Definition isspace (c : codepoint) : bool :=
  ((9 <=? c) && (c <=? 13)) || ((28 <=? c) && (c <=? 32))
  || (c =? 133) || (c =? 160) || (c =? 5760)
  || ((8192 <=? c) && (c <=? 8202))
  || (c =? 8232) || (c =? 8233) || (c =? 8239) || (c =? 8287)
  || (c =? 12288).

(** [s.split()]: the maximal runs of non-whitespace characters.  [cur] is the
    run being read, last character first. *)
Fixpoint split_from (cur : str) (s : str) : list str :=
  match s with
  | [] => match cur with [] => [] | _ => [rev cur] end
  | c :: s' =>
      if isspace c
      then match cur with
           | [] => split_from [] s'
           | _ => rev cur :: split_from [] s'
           end
      else split_from (c :: cur) s'
  end.

Definition split (s : str) : list str := split_from [] s.

Fixpoint lstrip (chars : str) (s : str) : str :=
  match s with
  | [] => []
  | c :: s' => if char_in c chars then lstrip chars s' else s
  end.

Definition rstrip (chars : str) (s : str) : str :=
  rev (lstrip chars (rev s)).

(** [s.strip(chars)]. *)
Definition strip (chars : str) (s : str) : str :=
  rstrip chars (lstrip chars s).

(** Truth value of a sequence: empty is false. *)
Definition truthy {A} (l : list A) : bool :=
  match l with [] => false | _ => true end.

(** [range(n)]. *)
Definition range (n : nat) : list Z := map Z.of_nat (seq 0 n).

(** [l.sort(key=key, reverse=True)]: the sort is stable, also when reversed,
    so elements of equal key keep their order.  An element is inserted in
    front of the first element whose key is not strictly greater. *)
Fixpoint insert_desc {A} (key : A -> Q) (x : A) (l : list A) : list A :=
  match l with
  | [] => [x]
  | y :: l' => if gt (key y) (key x) then y :: insert_desc key x l'
               else x :: l
  end.

Fixpoint sort_desc {A} (key : A -> Q) (l : list A) : list A :=
  match l with
  | [] => []
  | x :: l' => insert_desc key x (sort_desc key l')
  end.

(** The part of the Unicode character database the program consults.
    [lower] is [str.lower] on a whole string (CPython's lower-casing looks at
    the neighbours of a capital sigma, so it is not a map over characters). *)
Record UnicodeData := {
  isalpha : codepoint -> bool;
  isupper : codepoint -> bool;
  isdigit : codepoint -> bool;
  lower : str -> str
}.

(** [s.startswith(prefix)] and [s.endswith(suffix)]. *)
Fixpoint startswith (s prefix : str) : bool :=
  match prefix with
  | [] => true
  | p :: prefix' =>
      match s with
      | [] => false
      | c :: s' => (c =? p) && startswith s' prefix'
      end
  end.

Definition endswith (s suffix : str) : bool :=
  startswith (rev s) (rev suffix).

(** [s.replace(old, new)] for a one-character [old]. *)
Definition replace_char (old : codepoint) (new : str) (s : str) : str :=
  flat_map (fun c => if c =? old then new else [c]) s.

End Py.

Import Py.

Declare Scope py_scope.
Notation "x <- m ;; k" := (bind m (fun x => k))
  (at level 61, m at next level, right associativity) : py_scope.
Open Scope py_scope.

(** ** cipher.py *)

Module Cipher.

Definition COMMON_ENGLISH_WORDS : list str :=
  map lit ["the"; "and"; "is"; "message"; "secret"; "to"; "of";
           "in"; "for"; "on"; "with"; "at"; "by"; "from"; "this"]%string.

(** A scored attempt: [(shift, decrypted, score)]. *)
Definition attempt := (Z * str * Q)%type.
Definition a_shift (a : attempt) : Z := fst (fst a).
Definition a_text (a : attempt) : str := snd (fst a).
Definition a_score (a : attempt) : Q := snd a.

Section WithUnicode.

Variable U : UnicodeData.

(** The body of the loop of [encrypt_text], [shift] already reduced. *)
Definition encrypt_char (shift : Z) (ch : codepoint) : codepoint :=
  if isalpha U ch then
    let base := if isupper U ch then 65 else 97 in
    (ch - base + shift) mod 26 + base
  else ch.

Definition encrypt_text (text : str) (shift : Z) : str :=
  let shift := shift mod 26 in
  map (encrypt_char shift) text.

Definition decrypt_text (text : str) (shift : Z) : str :=
  encrypt_text text (- shift).

(** The cleaned words of [check_english_words]. *)
Definition clean_words (words : list str) : list str :=
  filter truthy (map (strip punctuation) words).

Definition check_english_words (text : str) (min_matches : Z) : bool * Z :=
  let words := split (lower U text) in
  let clean_words := clean_words words in
  let matches :=
    sum (map (fun _ => 1)
             (filter (fun w => str_in w COMMON_ENGLISH_WORDS) clean_words)) in
  let is_valid := min_matches <=? matches in
  (is_valid, matches).

Definition calculate_word_score (text : str) : result Q :=
  let words := split (lower U text) in
  if negb (truthy words) then Ok 0%Q
  else
    let cleaned := map (strip punctuation) words in
    let cleaned := filter truthy cleaned in
    if negb (truthy cleaned) then Ok 0%Q
    else
      let matches :=
        sum (map (fun _ => 1)
                 (filter (fun w => str_in w COMMON_ENGLISH_WORDS) cleaned)) in
      score <- truediv matches (len cleaned) ;;
      Ok score.

(** The variables of [brute_force_decrypt] that its loop updates. *)
Record bf_state := {
  best_score : Q;
  best_shift : option Z;
  best_text : option str;
  attempts : list attempt
}.

Definition bf_init : bf_state :=
  {| best_score := 0%Q; best_shift := None; best_text := None;
     attempts := [] |}.

(** One iteration of the loop ([verbose] is false: nothing is printed). *)
Definition bf_step (encrypted_text : str) (st : bf_state) (shift : Z)
  : result bf_state :=
  let decrypted := decrypt_text encrypted_text shift in
  let '(is_eng, match_cnt) := check_english_words decrypted 3 in
  score <- calculate_word_score decrypted ;;
  let attempts' := attempts st ++ [(shift, decrypted, score)] in
  if gt score (best_score st)
  then Ok {| best_score := score; best_shift := Some shift;
             best_text := Some decrypted; attempts := attempts' |}
  else Ok {| best_score := best_score st; best_shift := best_shift st;
             best_text := best_text st; attempts := attempts' |}.

Fixpoint bf_loop (encrypted_text : str) (st : bf_state) (shifts : list Z)
  : result bf_state :=
  match shifts with
  | [] => Ok st
  | shift :: rest =>
      st' <- bf_step encrypted_text st shift ;;
      bf_loop encrypted_text st' rest
  end.

(** Returns [(best_text, best_shift, attempts)]. *)
Definition brute_force_decrypt (encrypted_text : str)
  : result (option str * option Z * list attempt) :=
  st <- bf_loop encrypted_text bf_init (range 26) ;;
  let attempts := sort_desc a_score (attempts st) in
  Ok (best_text st, best_shift st, attempts).

(** The loop of [get_shift_between_texts] over [zip(original, encrypted)];
    [original] is the whole first argument, used by the final check. *)
Fixpoint shift_scan (original encrypted : str) (pairs : list (Z * Z))
  : option Z :=
  match pairs with
  | [] => None
  | (orig_ch, enc_ch) :: rest =>
      if isalpha U orig_ch && isalpha U enc_ch then
        if negb (Bool.eqb (isupper U orig_ch) (isupper U enc_ch)) then None
        else
          let shift :=
            if isupper U orig_ch then (enc_ch - orig_ch) mod 26
            else (enc_ch - orig_ch) mod 26 in
          if str_eqb (encrypt_text original shift) encrypted
          then Some shift else None
      else shift_scan original encrypted rest
  end.

Definition get_shift_between_texts (original encrypted : str) : option Z :=
  shift_scan original encrypted (combine original encrypted).

End WithUnicode.

End Cipher.

(** ** A concrete character table

    CPython's classification of the code points U+0000..U+00FF (ASCII and the
    Latin-1 supplement); code points above U+00FF are left unclassified
    (no letters, no digits, no case).  It is used to run the program on
    concrete inputs. *)

Module Latin1.

Definition between (lo hi c : Z) : bool := (lo <=? c) && (c <=? hi).

Definition l1_isupper (c : codepoint) : bool :=
  between 65 90 c || between 192 214 c || between 216 222 c.

Definition l1_isalpha (c : codepoint) : bool :=
  between 65 90 c || between 97 122 c
  || (c =? 170) || (c =? 181) || (c =? 186)
  || between 192 214 c || between 216 246 c || between 248 255 c.

Definition l1_isdigit (c : codepoint) : bool :=
  between 48 57 c || (c =? 178) || (c =? 179) || (c =? 185).

Definition l1_tolower (c : codepoint) : codepoint :=
  if l1_isupper c then c + 32 else c.

Definition latin1 : UnicodeData :=
  {| isalpha := l1_isalpha; isupper := l1_isupper; isdigit := l1_isdigit;
     lower := map l1_tolower |}.

Definition l1_islower_char (c : codepoint) : bool :=
  between 97 122 c || (c =? 170) || (c =? 181) || (c =? 186)
  || between 223 246 c || between 248 255 c.

(** [str.islower]: no upper-case or title-case character and at least one
    lower-case character; no code point below U+0100 is title-case. *)
Definition l1_islower (s : str) : bool :=
  negb (existsb l1_isupper s) && existsb l1_islower_char s.

End Latin1.

Import Latin1.

(** What every Unicode table says about ASCII: the letters are [A-Z] and
    [a-z], the capitals [A-Z], the digits [0-9], and lower-casing an ASCII
    string moves [A-Z] to [a-z]. *)
Definition ascii (c : codepoint) : Prop := 0 <= c < 128.

Record ascii_compatible (U : UnicodeData) : Prop := {
  ac_isalpha : forall c, ascii c ->
    isalpha U c = between 65 90 c || between 97 122 c;
  ac_isupper : forall c, ascii c -> isupper U c = between 65 90 c;
  ac_isdigit : forall c, ascii c -> isdigit U c = between 48 57 c;
  ac_lower : forall s, Forall ascii s ->
    lower U s = map (fun c => if between 65 90 c then c + 32 else c) s
}.

(** ** text_analyzer.py *)

Module TextAnalyzer.

(** [max(l, key=key)] and [min(l, key=key)]: the first element of extreme
    key; [ValueError] on an empty sequence. *)
Definition max_by {A} (key : A -> Z) (l : list A) : result A :=
  match l with
  | [] => Raise ValueError
  | x :: l' =>
      Ok (fold_left (fun best y => if key y >? key best then y else best) l' x)
  end.

Definition min_by {A} (key : A -> Z) (l : list A) : result A :=
  match l with
  | [] => Raise ValueError
  | x :: l' =>
      Ok (fold_left (fun best y => if key y <? key best then y else best) l' x)
  end.

(** [sorted(l, key=key)]: stable, ascending. *)
Fixpoint insert_asc {A} (key : A -> Z) (x : A) (l : list A) : list A :=
  match l with
  | [] => [x]
  | y :: l' => if key y <? key x then y :: insert_asc key x l' else x :: l
  end.

Fixpoint sorted_by {A} (key : A -> Z) (l : list A) : list A :=
  match l with
  | [] => []
  | x :: l' => insert_asc key x (sorted_by key l')
  end.

(** A [dict] in insertion order. *)
Section Dict.
Context {K V : Type} (eqb : K -> K -> bool).

Fixpoint dict_get (d : list (K * V)) (k : K) (default : V) : V :=
  match d with
  | [] => default
  | (k', v) :: d' => if eqb k' k then v else dict_get d' k default
  end.

Fixpoint dict_set (d : list (K * V)) (k : K) (v : V) : list (K * V) :=
  match d with
  | [] => [(k, v)]
  | (k', v') :: d' =>
      if eqb k' k then (k', v) :: d' else (k', v') :: dict_set d' k v
  end.

Fixpoint dict_lookup (d : list (K * V)) (k : K) : option V :=
  match d with
  | [] => None
  | (k', v) :: d' => if eqb k' k then Some v else dict_lookup d' k
  end.
End Dict.

(** [Counter(l)] over strings: counts in order of first appearance. *)
Definition Counter (l : list str) : list (str * Z) :=
  fold_left (fun c w => dict_set str_eqb c w (dict_get str_eqb c w 0 + 1)) l [].

(** [c.most_common(1)]: the first item of greatest count, if any. *)
Definition most_common_1 (c : list (str * Z)) : list (str * Z) :=
  match max_by snd c with
  | Ok item => [item]
  | Raise _ => []
  end.

(** [l[0]]. *)
Definition index0 {A} (l : list A) : result A :=
  match l with
  | [] => Raise IndexError
  | x :: _ => Ok x
  end.

(** [len(set(l))]. *)
Definition count_distinct {A} (dec : forall x y : A, {x = y} + {x <> y})
  (l : list A) : Z := len (nodup dec l).

Definition vowels : str := lit "aeiouAEIOU".

(** [x * n] on floats. *)
Definition fmul (x : Q) (n : Z) : Q := Qred (x * inject_Z n).

(** The dictionary returned by [analyze_text], one field per key.  The key
    ['all_lowercase'] is the only one that needs [str.islower]; it is
    modelled apart, by [all_lower] below, and raises nothing. *)
Record analysis := {
  original_text : str;
  word_count : Z;
  character_count : Z;
  unique_characters : Z;
  longest_word : str;
  shortest_word : str;
  average_word_length : Q;
  vowel_percentage : Q;
  words_sorted_by_length : list str;
  any_word_longer_than_7 : bool;
  indexed_words : list (Z * str);
  word_length_pairs : list (str * Z);
  word_length_distribution : list (Z * Z);
  unique_words_count : Z;
  most_common_word : str * Z;
  alphabetic_character_count : Z;
  digit_count : Z;
  punctuation_count : Z;
  words_starting_with_vowel : Z;
  palindrome_words : list str
}.

(** The keys [TextAnalyzer.full_analysis] adds.  The keys ['vowel_count'],
    ['top_words'] and ['letter_frequency'] are not modelled; they are built
    by [int] of a finite float under the guard [alphabetic_character_count >
    0] and by [Counter.most_common], and raise nothing. *)
Record gui_analysis := {
  base : analysis;
  total_chars : Z;
  unique_words : Z;
  letter_percentage : Q;
  digit_percentage : Q;
  space_percentage : Q
}.

(** [analysis['word_length_distribution'] = d]. *)
Definition set_word_length_distribution (a : analysis) (d : list (Z * Z))
  : analysis :=
  {| original_text := original_text a;
     word_count := word_count a;
     character_count := character_count a;
     unique_characters := unique_characters a;
     longest_word := longest_word a;
     shortest_word := shortest_word a;
     average_word_length := average_word_length a;
     vowel_percentage := vowel_percentage a;
     words_sorted_by_length := words_sorted_by_length a;
     any_word_longer_than_7 := any_word_longer_than_7 a;
     indexed_words := indexed_words a;
     word_length_pairs := word_length_pairs a;
     word_length_distribution := d;
     unique_words_count := unique_words_count a;
     most_common_word := most_common_word a;
     alphabetic_character_count := alphabetic_character_count a;
     digit_count := digit_count a;
     punctuation_count := punctuation_count a;
     words_starting_with_vowel := words_starting_with_vowel a;
     palindrome_words := palindrome_words a |}.

Section WithUnicode.

Variable U : UnicodeData.

(** [sum(1 for x in l if p(x))]. *)
Definition count_if {A} (p : A -> bool) (l : list A) : Z :=
  sum (map (fun _ => 1) (filter p l)).

(** The cleaned form of a word in the palindrome loop. *)
Definition clean_alpha (w : str) : str :=
  concat (map (fun ch => lower U [ch]) (filter (isalpha U) w)).

Definition is_palindrome_word (w : str) : bool :=
  let clean := clean_alpha w in
  truthy clean && str_eqb clean (rev clean) && (len clean >? 1).

Definition length_distribution (words : list str) : list (Z * Z) :=
  fold_left (fun d w => let l := len w in
                        dict_set Z.eqb d l (dict_get Z.eqb d l 0 + 1))
            words [].

Definition analyze_text (text : str) : result analysis :=
  let words := split text in
  let word_count := len words in
  let char_count := len text in
  let unique_chars := count_distinct Z.eq_dec text in
  longest <- (if truthy words then max_by len words else Ok []) ;;
  shortest <- (if truthy words then min_by len (filter truthy words)
               else Ok []) ;;
  avg_length <- (if truthy words
                 then truediv (sum (map len words)) (len words)
                 else Ok 0%Q) ;;
  let vowel_count := count_if (fun ch => char_in ch vowels) text in
  let alpha_count := count_if (isalpha U) text in
  vowel_percent <- (if alpha_count >? 0
                    then q <- truediv vowel_count alpha_count ;;
                         Ok (fmul q 100)
                    else Ok 0%Q) ;;
  let has_long_word := existsb (fun w => len w >? 7) words in
  let indexed := combine (range (length words)) words in
  let word_lengths := combine words (map len words) in
  let length_dist := length_distribution words in
  let unique_words :=
    count_distinct (list_eq_dec Z.eq_dec) (map (lower U) words) in
  most_common <- (if truthy words then
                    let word_counter := Counter (map (lower U) words) in
                    if truthy word_counter
                    then index0 (most_common_1 word_counter)
                    else Ok ([], 0)
                  else Ok ([], 0)) ;;
  let digit_count := count_if (isdigit U) text in
  let punct_count := count_if (fun ch => char_in ch punctuation) text in
  let vowel_start :=
    count_if (fun w => match w with
                       | [] => false
                       | c :: _ => char_in c vowels
                       end) words in
  let palindromes := filter is_palindrome_word words in
  Ok {| original_text := text;
        word_count := word_count;
        character_count := char_count;
        unique_characters := unique_chars;
        longest_word := longest;
        shortest_word := shortest;
        average_word_length := avg_length;
        vowel_percentage := vowel_percent;
        words_sorted_by_length := sorted_by len words;
        any_word_longer_than_7 := has_long_word;
        indexed_words := indexed;
        word_length_pairs := word_lengths;
        word_length_distribution := sorted_by fst length_dist;
        unique_words_count := unique_words;
        most_common_word := most_common;
        alphabetic_character_count := alpha_count;
        digit_count := digit_count;
        punctuation_count := punct_count;
        words_starting_with_vowel := vowel_start;
        palindrome_words := palindromes |}.

Definition full_analysis (text : str) : result gui_analysis :=
  analysis <- analyze_text text ;;
  let total := len text in
  percentages <-
    (if total >? 0 then
       l <- truediv (alphabetic_character_count analysis) total ;;
       d <- truediv (digit_count analysis) total ;;
       s <- truediv (count_if (Z.eqb 32) text) total ;;
       Ok (fmul l 100, fmul d 100, fmul s 100)
     else Ok (0%Q, 0%Q, 0%Q)) ;;
  let '(letter, digit, space) := percentages in
  let words := split text in
  let analysis :=
    if truthy words then analysis
    else set_word_length_distribution analysis [] in
  Ok {| base := analysis;
        total_chars := character_count analysis;
        unique_words := unique_words_count analysis;
        letter_percentage := letter;
        digit_percentage := digit;
        space_percentage := space |}.

(** The stand-alone helpers of the module ([check_all_lowercase] follows
    the section, [format_analysis_report] is not modelled).  They take any
    list of words, also one with empty strings. *)

Definition count_words (text : str) : Z := len (split text).

Definition count_unique_characters (text : str) : Z :=
  count_distinct Z.eq_dec text.

Definition find_longest_word (words : list str) : result str :=
  if negb (truthy words) then Ok []
  else max_by len words.

Definition find_shortest_word (words : list str) : result str :=
  if negb (truthy words) then Ok []
  else
    let clean_words := filter truthy words in
    if negb (truthy clean_words) then Ok []
    else min_by len clean_words.

Definition calculate_average_word_length (words : list str) : result Q :=
  if negb (truthy words) then Ok 0%Q
  else
    let lengths := map len words in
    truediv (sum lengths) (len words).

Definition calculate_vowel_percentage (text : str) : result Q :=
  if negb (truthy text) then Ok 0%Q
  else
    let vowel_cnt := count_if (fun c => char_in c vowels) text in
    let alpha_cnt := count_if (isalpha U) text in
    if alpha_cnt =? 0 then Ok 0%Q
    else
      q <- truediv vowel_cnt alpha_cnt ;;
      Ok (fmul q 100).

Definition sort_words_by_length (words : list str) : list str :=
  sorted_by len words.

Definition check_any_word_longer_than (words : list str) (length : Z)
  : bool :=
  existsb (fun w => len w >? length) words.

Definition get_indexed_words (words : list str) : list (Z * str) :=
  combine (range (List.length words)) words.

Definition create_word_length_pairs (words : list str) : list (str * Z) :=
  let lengths := map len words in
  combine words lengths.

Definition get_word_length_distribution (words : list str)
  : list (Z * Z) :=
  if negb (truthy words) then []
  else sorted_by fst (length_distribution words).

Definition count_unique_words (words : list str) : Z :=
  count_distinct (list_eq_dec Z.eq_dec) (map (lower U) words).

Definition find_most_common_word (words : list str) : result (str * Z) :=
  if negb (truthy words) then Ok ([], 0)
  else
    let lower_words := map (lower U) words in
    let counter := Counter lower_words in
    if truthy counter then index0 (most_common_1 counter)
    else Ok ([], 0).

Definition count_alphabetic_characters (text : str) : Z :=
  count_if (isalpha U) text.

Definition count_digits (text : str) : Z := count_if (isdigit U) text.

Definition count_punctuation (text : str) : Z :=
  count_if (fun c => char_in c punctuation) text.

Definition count_words_starting_with_vowel (words : list str) : Z :=
  count_if (fun w => match w with
                     | [] => false
                     | c :: _ => char_in c vowels
                     end) words.

Definition find_palindrome_words (words : list str) : list str :=
  filter is_palindrome_word words.

End WithUnicode.

(** The key ['all_lowercase'] of [analyze_text] and its helper
    [check_all_lowercase]; [islower] stands for [str.islower] as
    [lower U] stands for [str.lower]. *)
Section WithCase.

Variable U : UnicodeData.
Variable islower : str -> bool.

(** [w.isalpha()] of a whole word: at least one character, all of them
    alphabetic. *)
Definition word_isalpha (w : str) : bool :=
  truthy w && forallb (isalpha U) w.

(** [w.islower() or not w.isalpha()]. *)
Definition lower_or_not_alpha (w : str) : bool :=
  islower w || negb (word_isalpha w).

(** The local [all_lower] of [analyze_text], stored under
    ['all_lowercase']. *)
Definition all_lower (text : str) : bool :=
  let words := split text in
  forallb lower_or_not_alpha words.

Definition check_all_lowercase (words : list str) : bool :=
  if negb (truthy words) then true
  else forallb lower_or_not_alpha words.

End WithCase.

End TextAnalyzer.

(** ** cipher.py: the class [CaesarCipher] *)

Module CaesarCipher.

(** The object: its one field. *)
Record t := { last_attempts : list Cipher.attempt }.

(** [__init__]. *)
Definition init : t := {| last_attempts := [] |}.

Section WithUnicode.

Variable U : UnicodeData.

Definition encrypt (self : t) (text : str) (shift : Z) : str :=
  Cipher.encrypt_text U text shift.

Definition decrypt (self : t) (text : str) (shift : Z) : str :=
  Cipher.decrypt_text U text shift.

(** Returns [(best_shift, decrypted_text)] and the object with the attempts
    of this call. *)
Definition brute_force_decrypt (self : t) (encrypted_text : str)
  : result ((option Z * option str) * t) :=
  r <- Cipher.brute_force_decrypt U encrypted_text ;;
  let '(decrypted, shift, attempts) := r in
  let self := {| last_attempts := attempts |} in
  Ok ((shift, decrypted), self).

Definition calculate_score (self : t) (text : str) : result Q :=
  Cipher.calculate_word_score U text.

End WithUnicode.

End CaesarCipher.

(** ** file_handler.py: the helper functions *)

Module FileHandler.

Definition ensure_file_extension (filename ext : str) : str :=
  let ext := if negb (startswith ext (lit ".")) then lit "." ++ ext
             else ext in
  let filename := if negb (endswith filename ext) then filename ++ ext
                  else filename in
  filename.

(** The characters not allowed in file names: less-than, greater-than,
    colon, double quote, slash, backslash, bar, question mark, star. *)
Definition bad_chars : str := lit "<>:" ++ [34] ++ lit "/\|?*".

Definition sanitize_filename (filename : str) : str :=
  let filename :=
    fold_left (fun name ch => replace_char ch (lit "_") name)
              bad_chars filename in
  let filename := strip (lit " .") filename in
  if negb (truthy filename) then lit "unnamed" else filename.

End FileHandler.

(** * Statements

    The vocabulary of the properties: the value of the score, the loop
    invariant of the decoder, the outcomes and orders the specification
    speaks of. *)

Import Cipher.
Import TextAnalyzer.

Definition asciib (c : codepoint) : bool := (0 <=? c) && (c <? 128).

(** The letter U+00E9 (e with acute accent): [str.isalpha] accepts it,
    [str.isupper] does not, so the loop treats it as a lower-case ASCII letter
    and rebases it on 97. *)
Definition e_acute : codepoint := 233.

(** The score as a value. *)
Definition score_of (U : UnicodeData) (text : str) : Q :=
  match calculate_word_score U text with
  | Ok q => q
  | Raise _ => 0%Q
  end.

(** The score of the candidate of a shift, and the attempt recorded for
    it. *)
Definition shift_score (U : UnicodeData) (text : str) (s : Z) : Q :=
  score_of U (decrypt_text U text s).

Definition attempt_at (U : UnicodeData) (text : str) (s : Z) : attempt :=
  (s, decrypt_text U text s, shift_score U text s).

(** The loop invariant of [brute_force_decrypt], [done] being the shifts
    tried so far: the attempts are those of [done], in order; with no best
    yet, no score exceeded 0.0; otherwise the best is the first shift of
    [done] of greatest score. *)
Record bf_inv (U : UnicodeData) (text : str) (done : list Z) (st : bf_state)
  : Prop := {
  inv_attempts : attempts st = map (attempt_at U text) done;
  inv_best :
    match best_shift st with
    | None =>
        best_text st = None /\ best_score st = 0%Q
        /\ Forall (fun s => (shift_score U text s <= 0)%Q) done
    | Some b =>
        best_text st = Some (decrypt_text U text b)
        /\ best_score st = shift_score U text b
        /\ (0 < shift_score U text b)%Q
        /\ exists pre post, done = pre ++ b :: post
             /\ Forall (fun s =>
                          (shift_score U text s < shift_score U text b)%Q) pre
             /\ Forall (fun s =>
                          (shift_score U text s <= shift_score U text b)%Q)
                       post
    end
}.

(** [a] ranks before [b]: a greater key, or the same key and an earlier
    position. *)
Definition ranked {A} (key : A -> Q) (pos : A -> Z) (a b : A) : Prop :=
  (key b < key a)%Q \/ ((key a == key b)%Q /\ pos a < pos b).

(** No shift scores strictly above 0.0. *)
Definition no_signal (U : UnicodeData) (text : str) : Prop :=
  forall s q, 0 <= s <= 25 ->
    calculate_word_score U (decrypt_text U text s) = Ok q -> ~ (0 < q)%Q.

(** The "not found" outcome: no best shift, no best text, 26 attempts of
    score 0.0. *)
Definition not_found (U : UnicodeData) (text : str) : Prop :=
  exists atts,
    brute_force_decrypt U text = Ok (None, None, atts)
    /\ len atts = 26
    /\ Forall (fun a => a_score a = 0%Q) atts.

(** [a] has the best score of [atts] and, among the attempts of that score,
    the lowest shift. *)
Definition lowest_best (atts : list attempt) (a : attempt) : Prop :=
  In a atts
  /\ (forall b, In b atts -> (a_score b <= a_score a)%Q)
  /\ (forall b, In b atts -> (a_score b == a_score a)%Q ->
        a_shift a <= a_shift b).

(** The tie rule: of two shifts that share the best score, the lower one,
    [a1], is the reported best shift (when its score passes [guard]) and is
    the first attempt. *)
Definition tie_rule (guard : Q -> Prop) (bs : option Z)
  (atts : list attempt) : Prop :=
  forall a1 a2,
    lowest_best atts a1 -> In a2 atts -> a_shift a1 < a_shift a2 ->
    (a_score a2 == a_score a1)%Q ->
    (guard (a_score a1) -> bs = Some (a_shift a1))
    /\ exists rest, atts = a1 :: rest.

(** With the best score at 0.0 no best shift is reported. *)
Definition silent_at_zero (bs : option Z) (atts : list attempt) : Prop :=
  forall a, lowest_best atts a -> (a_score a == 0)%Q -> bs = None.

(** The attempts are ranked (score descending, equal scores by shift
    ascending) and obey the tie rule. *)
Definition ranked_with_ties (guard : Q -> Prop) (U : UnicodeData)
  (text : str) : Prop :=
  exists bt bs atts,
    brute_force_decrypt U text = Ok (bt, bs, atts)
    /\ StronglySorted (ranked a_score a_shift) atts
    /\ tie_rule guard bs atts.

(** The statistics of the literal ["The cat sat. 2 Dogs ran racecar!"], with
    [n] the word count. *)
Definition literal_statistics (n : Z) (U : UnicodeData) : Prop :=
  exists r,
    analyze_text U (lit "The cat sat. 2 Dogs ran racecar!") = Ok r
    /\ word_count r = n
    /\ dict_lookup Z.eqb (word_length_distribution r) 3 = Some 3
    /\ palindrome_words r = [lit "racecar!"]
    /\ digit_count r = 1.

(** The cleaned tokens as the specification words them (section 4.2): split
    on whitespace, strip punctuation from each token, discard the tokens that
    become empty, lower-case the remainder. *)
Definition spec_cleaned_tokens (U : UnicodeData) (text : str) : list str :=
  map (lower U) (filter truthy (map (strip punctuation) (split text))).

(** The score as the specification words it: matching cleaned tokens over
    all cleaned tokens, 0.0 when there is none. *)
Definition spec_score (U : UnicodeData) (text : str) : Q :=
  let cleaned := spec_cleaned_tokens U text in
  let matches := filter (fun w => str_in w COMMON_ENGLISH_WORDS) cleaned in
  if truthy cleaned
  then Qred (inject_Z (len matches) / inject_Z (len cleaned))
  else 0%Q.

(** Lower-casing respects the tokens: it neither creates nor removes
    whitespace or leading and trailing punctuation, and only the empty string
    lower-cases to the empty string.  (In Unicode no whitespace or ASCII
    punctuation character has a case mapping, and none is the lower case of
    another character.) *)
Record lower_respects_tokens (U : UnicodeData) : Prop := {
  lower_split : forall t, split (lower U t) = map (lower U) (split t);
  lower_strip : forall w,
    strip punctuation (lower U w) = lower U (strip punctuation w);
  lower_empty : forall w, lower U w = [] <-> w = []
}.

(** The first computation of a chain of binds returns, by [H]. *)
Ltac bind_ok H :=
  match type of H with
  | _ = ?r =>
      match goal with
      | |- context [bind ?m _] =>
          replace m with r by (symmetry; exact H); cbn [bind]
      end
  end.

(** * Properties *)

(** ** The built-ins *)

Section BuiltinFacts.

Lemma fold_add_shift (l : list Z) (a : Z) :
  fold_left Z.add l a = a + sum l.
Proof.
  unfold sum. revert a.
  induction l as [|x l IH]; intros a; simpl; [lia|].
  rewrite (IH (a + x)), (IH x). lia.
Qed.

Lemma sum_cons (x : Z) (l : list Z) : sum (x :: l) = x + sum l.
Proof. unfold sum at 1. simpl. apply fold_add_shift. Qed.

Lemma sum_ones {A} (l : list A) : sum (map (fun _ => 1) l) = len l.
Proof.
  induction l as [|x l IH]; [reflexivity|].
  simpl map. rewrite sum_cons, IH. unfold len. simpl length. lia.
Qed.

Lemma len_nonneg {A} (l : list A) : 0 <= len l.
Proof. unfold len. lia. Qed.

Lemma len_zero {A} (l : list A) : len l = 0 -> l = [].
Proof. destruct l; [reflexivity|]. unfold len. simpl. lia. Qed.

Lemma truthy_true {A} (l : list A) : truthy l = true <-> l <> [].
Proof. destruct l; simpl; split; congruence. Qed.

Lemma truthy_false {A} (l : list A) : truthy l = false <-> l = [].
Proof. destruct l; simpl; split; congruence. Qed.

Lemma gt_true (x y : Q) : gt x y = true <-> (y < x)%Q.
Proof.
  unfold gt. rewrite negb_true_iff, <- not_true_iff_false, Qle_bool_iff.
  split; [apply Qnot_le_lt | apply Qlt_not_le].
Qed.

Lemma gt_false (x y : Q) : gt x y = false <-> (x <= y)%Q.
Proof. unfold gt. rewrite negb_false_iff. apply Qle_bool_iff. Qed.

Lemma str_eqb_eq (a b : str) : str_eqb a b = true <-> a = b.
Proof.
  unfold str_eqb. destruct (list_eq_dec Z.eq_dec a b); split; congruence.
Qed.

Lemma truediv_ok (a b : Z) :
  b <> 0 -> truediv a b = Ok (Qred (inject_Z a / inject_Z b)).
Proof.
  intros Hb. unfold truediv. destruct (Z.eqb_spec b 0); [contradiction|].
  reflexivity.
Qed.

(** A quotient of [0 <= a <= b], [0 < b], lies between 0 and 1. *)
Lemma ratio_bounds (a b : Z) :
  0 <= a <= b -> 0 < b ->
  (0 <= Qred (inject_Z a / inject_Z b) <= 1)%Q.
Proof.
  intros [Ha Hab] Hb.
  assert (Hq : (0 < inject_Z b)%Q).
  { unfold Qlt, inject_Z. simpl. lia. }
  rewrite Qred_correct. split.
  - apply Qle_shift_div_l; [exact Hq|]. rewrite Qmult_0_l.
    unfold Qle, inject_Z. simpl. lia.
  - apply Qle_shift_div_r; [exact Hq|]. rewrite Qmult_1_l.
    unfold Qle, inject_Z. simpl. lia.
Qed.

(** A float that equals zero is the float [0.0]. *)
Lemma Qred_zero (q : Q) : (q == 0)%Q -> Qred q = 0%Q.
Proof. intros H. apply (Qred_complete q 0 H). Qed.

Lemma range_spec (n : nat) (c : Z) :
  In c (range n) <-> 0 <= c < Z.of_nat n.
Proof.
  unfold range. rewrite in_map_iff. split.
  - intros [k [<- Hk]]. apply in_seq in Hk. lia.
  - intros Hc. exists (Z.to_nat c). split; [lia|]. apply in_seq. lia.
Qed.

(** A property of the code points below [n], checked by running it. *)
Lemma range_forallb (f : Z -> bool) (n : nat) :
  forallb f (range n) = true ->
  forall c, 0 <= c < Z.of_nat n -> f c = true.
Proof.
  intros H c Hc. rewrite forallb_forall in H. apply H, range_spec, Hc.
Qed.

End BuiltinFacts.

(** ** The shift transform *)

Section ShiftFacts.

Variable U : UnicodeData.

Lemma encrypt_text_length (text : str) (n : Z) :
  length (encrypt_text U text n) = length text.
Proof. unfold encrypt_text. apply length_map. Qed.

Lemma encrypt_text_mod (text : str) (n : Z) :
  encrypt_text U text n = encrypt_text U text (n mod 26).
Proof. unfold encrypt_text. rewrite Z.mod_mod by lia. reflexivity. Qed.

Lemma encrypt_char_not_alpha (shift : Z) (ch : codepoint) :
  isalpha U ch = false -> encrypt_char U shift ch = ch.
Proof. intros H. unfold encrypt_char. rewrite H. reflexivity. Qed.

(** The argument of [chr] is the code point of an ASCII letter, so [chr]
    does not raise. *)
Lemma encrypt_char_range (shift : Z) (ch : codepoint) :
  isalpha U ch = true -> 65 <= encrypt_char U shift ch <= 122.
Proof.
  intros H. unfold encrypt_char. rewrite H.
  destruct (isupper U ch);
    match goal with
    | |- context [?x mod 26] => pose proof (Z.mod_pos_bound x 26 ltac:(lia))
    end; lia.
Qed.

(** A character [str.isalpha] rejects keeps its place and its value. *)
Lemma encrypt_text_not_alpha (text : str) (n : Z) (i : nat) (ch : codepoint) :
  nth_error text i = Some ch -> isalpha U ch = false ->
  nth_error (encrypt_text U text n) i = Some ch.
Proof.
  intros Hi Hch. unfold encrypt_text.
  rewrite nth_error_map, Hi. simpl.
  rewrite encrypt_char_not_alpha by exact Hch. reflexivity.
Qed.

(** Undoing a shift inside one 26-letter range. *)
Lemma unshift_residue (x n : Z) :
  0 <= x < 26 -> ((x + n mod 26) mod 26 + (- n) mod 26) mod 26 = x.
Proof. intros Hx. Z.div_mod_to_equations. lia. Qed.

(** Where the letters of the text are all in [A-Z] and [a-z], decrypting
    undoes encrypting. *)
Lemma round_trip_latin (text : str) (n : Z) :
  ascii_compatible U ->
  Forall (fun c => isalpha U c = true ->
                   between 65 90 c || between 97 122 c = true) text ->
  decrypt_text U (encrypt_text U text n) n = text.
Proof.
  intros HU Hlatin. unfold decrypt_text, encrypt_text.
  rewrite map_map. rewrite <- (map_id text) at 2.
  apply map_ext_in. intros c Hc.
  rewrite Forall_forall in Hlatin. specialize (Hlatin c Hc).
  destruct (isalpha U c) eqn:Ea;
    [|rewrite !encrypt_char_not_alpha; [reflexivity | exact Ea |];
      rewrite encrypt_char_not_alpha; exact Ea].
  specialize (Hlatin eq_refl).
  assert (Hascii : ascii c) by (unfold ascii, between in *; lia).
  pose proof (ac_isupper U HU c Hascii) as Eu.
  assert (Hin : forall b, 0 <= c - b < 26 ->
            (c - b + n mod 26) mod 26 + b = encrypt_char U (n mod 26) c ->
            b = 65 \/ b = 97 ->
            (if isupper U (encrypt_char U (n mod 26) c) then 65 else 97) = b ->
            encrypt_char U (- n mod 26) (encrypt_char U (n mod 26) c) = c).
  { intros b Hb He Hb' Hbase.
    assert (Hr : 65 <= encrypt_char U (n mod 26) c <= 122)
      by (apply encrypt_char_range, Ea).
    unfold encrypt_char at 1.
    rewrite (ac_isalpha U HU) by (unfold ascii; lia).
    pose proof (Z.mod_pos_bound (c - b + n mod 26) 26 ltac:(lia)) as Hm.
    replace (between 65 90 (encrypt_char U (n mod 26) c)
             || between 97 122 (encrypt_char U (n mod 26) c)) with true
      by (unfold between; lia).
    rewrite Hbase, <- He.
    replace ((c - b + n mod 26) mod 26 + b - b)
      with ((c - b + n mod 26) mod 26) by lia.
    rewrite unshift_residue by lia. lia. }
  destruct (between 65 90 c) eqn:Eb.
  - apply (Hin 65); [unfold between in Eb; lia | | left; reflexivity |].
    + unfold encrypt_char. rewrite Ea, Eu. reflexivity.
    + rewrite (ac_isupper U HU).
      * unfold encrypt_char. rewrite Ea, Eu.
        pose proof (Z.mod_pos_bound (c - 65 + n mod 26) 26 ltac:(lia)).
        replace (between 65 90 ((c - 65 + n mod 26) mod 26 + 65)) with true
          by (unfold between; lia).
        reflexivity.
      * pose proof (encrypt_char_range (n mod 26) c Ea).
        unfold ascii. lia.
  - apply (Hin 97); [unfold between in *; lia | | right; reflexivity |].
    + unfold encrypt_char. rewrite Ea, Eu. reflexivity.
    + rewrite (ac_isupper U HU).
      * unfold encrypt_char. rewrite Ea, Eu.
        pose proof (Z.mod_pos_bound (c - 97 + n mod 26) 26 ltac:(lia)).
        replace (between 65 90 ((c - 97 + n mod 26) mod 26 + 97)) with false
          by (unfold between; lia).
        reflexivity.
      * pose proof (encrypt_char_range (n mod 26) c Ea).
        unfold ascii. lia.
Qed.

End ShiftFacts.

(** C10: a shift returned by [get_shift_between_texts] lies in [0, 25] and
    encrypts the whole of [original] to [encrypted]. *)
Theorem get_shift_between_texts_sound
  (U : UnicodeData) (original encrypted : str) (s : Z) :
  get_shift_between_texts U original encrypted = Some s ->
  0 <= s <= 25 /\ encrypt_text U original s = encrypted.
Proof.
  unfold get_shift_between_texts.
  generalize (combine original encrypted) as pairs.
  induction pairs as [|[orig_ch enc_ch] rest IH]; simpl; [discriminate|].
  destruct (isalpha U orig_ch && isalpha U enc_ch); [|exact IH].
  destruct (negb (Bool.eqb (isupper U orig_ch) (isupper U enc_ch)));
    [discriminate|].
  set (shift := if isupper U orig_ch then (enc_ch - orig_ch) mod 26
                else (enc_ch - orig_ch) mod 26).
  assert (Hs : 0 <= shift <= 25).
  { pose proof (Z.mod_pos_bound (enc_ch - orig_ch) 26 ltac:(lia)).
    subst shift. destruct (isupper U orig_ch); lia. }
  destruct (str_eqb (encrypt_text U original shift) encrypted) eqn:E;
    [|discriminate].
  intros [= <-]. split; [exact Hs|]. apply str_eqb_eq, E.
Qed.

Lemma get_shift_between_texts_sound_witness :
  get_shift_between_texts latin1 (lit "Hello, World") (lit "Khoor, Zruog")
    = Some 3
  /\ (0 <= 3 <= 25
      /\ encrypt_text latin1 (lit "Hello, World") 3 = lit "Khoor, Zruog").
Proof.
  split; [reflexivity|].
  apply (get_shift_between_texts_sound latin1 (lit "Hello, World")
           (lit "Khoor, Zruog") 3).
  reflexivity.
Defined.


(** C4: the round trip fails on a letter outside [A-Z] and [a-z]: encrypting
    the one-letter text U+00E9 by 3 and decrypting by 3 gives the letter g. *)
Theorem round_trip_e_acute :
  decrypt_text latin1 (encrypt_text latin1 [e_acute] 3) 3 = lit "g"
  /\ decrypt_text latin1 (encrypt_text latin1 [e_acute] 3) 3 <> [e_acute].
Proof. split; [reflexivity | discriminate]. Qed.

(** C5: a letter outside [A-Z] and [a-z] is not copied: with shift 0 the
    one-letter text U+00E9 becomes the letter g. *)
Theorem encrypt_e_acute :
  Latin1.between 65 90 e_acute || Latin1.between 97 122 e_acute = false
  /\ encrypt_text latin1 [e_acute] 0 = lit "g"
  /\ encrypt_text latin1 [e_acute] 0 <> [e_acute].
Proof. split; [reflexivity|]. split; [reflexivity | discriminate]. Qed.

(** ** The heuristic scorer *)

Section ScorerFacts.

Variable U : UnicodeData.

(** [calculate_word_score] never raises: both divisions are guarded. *)
Lemma calculate_word_score_total (text : str) :
  exists q, calculate_word_score U text = Ok q
            /\ (0 <= q <= 1)%Q /\ Qred q = q.
Proof.
  unfold calculate_word_score. cbv zeta.
  remember (split (lower U text)) as words eqn:Hw.
  remember (filter truthy (map (strip punctuation) words)) as cleaned eqn:Hc.
  assert (Hzero : exists q, Ok 0%Q = Ok q /\ (0 <= q <= 1)%Q /\ Qred q = q).
  { exists 0%Q. split; [reflexivity|]. split; [split; discriminate|].
    reflexivity. }
  destruct (truthy words); simpl negb; cbv iota; [|exact Hzero].
  destruct (truthy cleaned) eqn:Tc; simpl negb; cbv iota; [|exact Hzero].
  rewrite sum_ones.
  assert (Hpos : 0 < len cleaned).
  { destruct cleaned; [discriminate|]. unfold len. simpl. lia. }
  rewrite truediv_ok by lia. unfold bind.
  eexists. split; [reflexivity|]. split.
  - apply ratio_bounds; [|exact Hpos]. split; [apply len_nonneg|].
    unfold len. apply inj_le, filter_length_le.
  - apply Qred_complete, Qred_correct.
Qed.


Lemma calculate_word_score_eq (text : str) :
  calculate_word_score U text = Ok (score_of U text).
Proof.
  unfold score_of.
  destruct (calculate_word_score_total text) as [q [-> _]]. reflexivity.
Qed.

Lemma score_of_bounds (text : str) : (0 <= score_of U text <= 1)%Q.
Proof.
  unfold score_of.
  destruct (calculate_word_score_total text) as [q [-> [H _]]]. exact H.
Qed.

Lemma score_of_canonical (text : str) :
  Qred (score_of U text) = score_of U text.
Proof.
  unfold score_of.
  destruct (calculate_word_score_total text) as [q [-> [_ H]]]. exact H.
Qed.

Lemma score_of_zero (text : str) :
  ~ (0 < score_of U text)%Q -> score_of U text = 0%Q.
Proof.
  intros H. rewrite <- score_of_canonical. apply Qred_zero.
  apply Qle_antisym; [apply Qnot_lt_le, H | apply score_of_bounds].
Qed.

End ScorerFacts.

(** ** The stable descending sort *)

Section SortFacts.

Context {A : Type} (key : A -> Q) (pos : A -> Z).

Lemma insert_desc_perm (x : A) (l : list A) :
  Permutation (insert_desc key x l) (x :: l).
Proof.
  induction l as [|y l IH]; simpl; [reflexivity|].
  destruct (gt (key y) (key x)); [|reflexivity].
  rewrite IH. apply perm_swap.
Qed.

Lemma sort_desc_perm (l : list A) : Permutation (sort_desc key l) l.
Proof.
  induction l as [|x l IH]; simpl; [reflexivity|].
  rewrite insert_desc_perm, IH. reflexivity.
Qed.

Lemma sort_desc_in (l : list A) (a : A) : In a (sort_desc key l) <-> In a l.
Proof.
  split; apply Permutation_in;
    [apply sort_desc_perm | symmetry; apply sort_desc_perm].
Qed.

Lemma sort_desc_length (l : list A) : length (sort_desc key l) = length l.
Proof. apply Permutation_length, sort_desc_perm. Qed.

(** Inserting an element that precedes all of [l] keeps [l] ranked. *)
Lemma insert_desc_ranked (x : A) (l : list A) :
  Forall (fun y => pos x < pos y) l ->
  StronglySorted (ranked key pos) l ->
  StronglySorted (ranked key pos) (insert_desc key x l).
Proof.
  intros Hpos Hs. induction Hs as [|y l Hs IH Hy]; simpl.
  - constructor; constructor.
  - inversion Hpos as [|? ? Hxy Hpos']; subst.
    destruct (gt (key y) (key x)) eqn:E.
    + apply gt_true in E. constructor; [apply IH, Hpos'|].
      apply (Permutation_Forall (Permutation_sym (insert_desc_perm x l))).
      constructor; [left; exact E | exact Hy].
    + apply gt_false in E. constructor; [constructor; assumption|].
      assert (Hxy' : ranked key pos x y).
      { destruct (Qlt_le_dec (key y) (key x)) as [Hlt|Hle]; [left; exact Hlt|].
        right. split; [apply Qle_antisym; assumption | exact Hxy]. }
      constructor; [exact Hxy'|].
      rewrite Forall_forall in Hy, Hpos' |- *. intros z Hz.
      destruct (Qlt_le_dec (key z) (key x)) as [Hlt|Hle]; [left; exact Hlt|].
      right. split; [|apply Hpos', Hz].
      apply Qle_antisym; [exact Hle|].
      apply Qle_trans with (key y); [|exact E].
      destruct (Hy z Hz) as [H|[H _]];
        [apply Qlt_le_weak, H | rewrite H; apply Qle_refl].
Qed.

(** Sorting a list given in order of position ranks it: by key descending,
    equal keys by position ascending. *)
Lemma sort_desc_ranked (l : list A) :
  StronglySorted (fun a b => pos a < pos b) l ->
  StronglySorted (ranked key pos) (sort_desc key l).
Proof.
  intros Hs. induction Hs as [|x l Hs IH Hx]; simpl; [constructor|].
  apply insert_desc_ranked; [|exact IH].
  apply (Permutation_Forall (Permutation_sym (sort_desc_perm l))). exact Hx.
Qed.

(** In a ranked list, an element of greatest key and, among those, of least
    position is the first. *)
Lemma ranked_head (l : list A) (a : A) :
  StronglySorted (ranked key pos) l -> In a l ->
  (forall b, In b l -> (key b <= key a)%Q) ->
  (forall b, In b l -> (key b == key a)%Q -> pos a <= pos b) ->
  exists rest, l = a :: rest.
Proof.
  intros Hs Hin Hbest Hleast.
  destruct l as [|h rest]; [contradiction|].
  destruct Hin as [->|Hin]; [exists rest; reflexivity|].
  exfalso. inversion Hs as [|? ? _ Hh]; subst.
  rewrite Forall_forall in Hh.
  destruct (Hh a Hin) as [Hlt|[Heq Hlt]].
  - apply (Qlt_not_le _ _ Hlt). apply Hbest. left. reflexivity.
  - specialize (Hleast h (or_introl eq_refl) Heq). lia.
Qed.

End SortFacts.

Lemma range_sorted (n : nat) : StronglySorted Z.lt (range n).
Proof.
  unfold range. generalize 0%nat.
  induction n as [|n IH]; intros a; simpl; constructor; [apply IH|].
  rewrite Forall_forall. intros z Hz.
  apply in_map_iff in Hz. destruct Hz as [k [<- Hk]].
  apply in_seq in Hk. lia.
Qed.

(** ** The brute-force decoder *)

Section DecoderFacts.

Variable U : UnicodeData.
Variable text : str.

Lemma bf_inv_init : bf_inv U text [] bf_init.
Proof.
  split; simpl; [reflexivity|].
  split; [reflexivity|]. split; [reflexivity | constructor].
Qed.

Lemma bf_step_inv (done : list Z) (st : bf_state) (s : Z) :
  bf_inv U text done st ->
  exists st', bf_step U text st s = Ok st' /\ bf_inv U text (done ++ [s]) st'.
Proof.
  intros [Hatt Hbest]. unfold bf_step.
  destruct (check_english_words U (decrypt_text U text s) 3) as [is_eng cnt].
  rewrite calculate_word_score_eq. unfold bind. fold (shift_score U text s).
  destruct (gt (shift_score U text s) (best_score st)) eqn:E;
    eexists; (split; [reflexivity|]);
    (split; cbn [attempts best_shift best_text Cipher.best_score];
     [rewrite Hatt, map_app; reflexivity|]).
  - apply gt_true in E.
    split; [reflexivity|]. split; [reflexivity|].
    destruct (best_shift st) as [b|].
    + destruct Hbest as [_ [Hsc [Hpos [pre [post [-> [Hpre Hpost]]]]]]].
      rewrite Hsc in E.
      split; [apply Qlt_trans with (shift_score U text b); assumption|].
      exists (pre ++ b :: post), []. split; [reflexivity|].
      split; [|constructor].
      apply Forall_app. split; [|constructor].
      * eapply Forall_impl; [|exact Hpre]. intros z Hz.
        apply Qlt_trans with (shift_score U text b); assumption.
      * exact E.
      * eapply Forall_impl; [|exact Hpost]. intros z Hz.
        apply Qle_lt_trans with (shift_score U text b); assumption.
    + destruct Hbest as [_ [Hsc Hall]]. rewrite Hsc in E.
      split; [exact E|]. exists done, []. split; [reflexivity|].
      split; [|constructor].
      eapply Forall_impl; [|exact Hall]. intros z Hz.
      apply Qle_lt_trans with 0%Q; assumption.
  - apply gt_false in E.
    destruct (best_shift st) as [b|].
    + destruct Hbest as [Htx [Hsc [Hpos [pre [post [-> [Hpre Hpost]]]]]]].
      rewrite Hsc in E. split; [exact Htx|]. split; [exact Hsc|].
      split; [exact Hpos|]. exists pre, (post ++ [s]).
      split; [rewrite <- app_assoc; reflexivity|]. split; [exact Hpre|].
      apply Forall_app. split; [exact Hpost|].
      constructor; [exact E|constructor].
    + destruct Hbest as [Htx [Hsc Hall]]. rewrite Hsc in E.
      split; [exact Htx|]. split; [exact Hsc|].
      apply Forall_app. split; [exact Hall|].
      constructor; [exact E|constructor].
Qed.

Lemma bf_loop_inv (shifts done : list Z) (st : bf_state) :
  bf_inv U text done st ->
  exists st', bf_loop U text st shifts = Ok st'
              /\ bf_inv U text (done ++ shifts) st'.
Proof.
  revert done st. induction shifts as [|s rest IH]; intros done st Hinv; simpl.
  - exists st. rewrite app_nil_r. split; [reflexivity | exact Hinv].
  - destruct (bf_step_inv done st s Hinv) as [st1 [-> Hinv1]]. unfold bind.
    destruct (IH (done ++ [s]) st1 Hinv1) as [st' [Hrun Hinv']].
    exists st'. rewrite <- app_assoc in Hinv'. split; assumption.
Qed.

(** The decoder runs to completion, and its result is described by the
    invariant over the 26 shifts. *)
Lemma brute_force_decrypt_run :
  exists st,
    brute_force_decrypt U text
      = Ok (best_text st, best_shift st,
            sort_desc a_score (map (attempt_at U text) (range 26)))
    /\ bf_inv U text (range 26) st.
Proof.
  destruct (bf_loop_inv (range 26) [] bf_init bf_inv_init) as [st [Hrun Hinv]].
  exists st. unfold brute_force_decrypt. rewrite Hrun. unfold bind.
  rewrite (inv_attempts _ _ _ _ Hinv). split; [reflexivity | exact Hinv].
Qed.

Lemma attempts_ranked :
  StronglySorted (ranked a_score a_shift)
    (sort_desc a_score (map (attempt_at U text) (range 26))).
Proof.
  apply sort_desc_ranked.
  generalize (range_sorted 26). generalize (range 26).
  intros l Hl. induction Hl as [|x l Hl IH Hx]; simpl; constructor.
  - exact IH.
  - rewrite Forall_forall in Hx |- *. intros a Ha.
    apply in_map_iff in Ha. destruct Ha as [z [<- Hz]]. apply Hx, Hz.
Qed.

Lemma in_attempts (a : attempt) :
  In a (sort_desc a_score (map (attempt_at U text) (range 26))) <->
  exists s, 0 <= s <= 25 /\ a = attempt_at U text s.
Proof.
  rewrite sort_desc_in, in_map_iff. split.
  - intros [s [<- Hs]]. apply range_spec in Hs. exists s.
    split; [lia|reflexivity].
  - intros [s [Hs ->]]. exists s. split; [reflexivity|]. apply range_spec. lia.
Qed.

(** In the ascending list of shifts, the first shift of greatest score is the
    least such shift. *)
Lemma first_best_is_least (b : Z) (pre post : list Z) (s : Z) :
  range 26 = pre ++ b :: post ->
  Forall (fun z => (shift_score U text z < shift_score U text b)%Q) pre ->
  0 <= s <= 25 -> (shift_score U text b <= shift_score U text s)%Q -> b <= s.
Proof.
  intros Hsplit Hpre Hs Hle.
  assert (Hin : In s (pre ++ b :: post)).
  { rewrite <- Hsplit. apply range_spec. lia. }
  pose proof (range_sorted 26) as Hsorted. rewrite Hsplit in Hsorted.
  apply in_app_or in Hin. destruct Hin as [Hin|[->|Hin]].
  - exfalso. rewrite Forall_forall in Hpre.
    apply (Qlt_not_le _ _ (Hpre s Hin)), Hle.
  - lia.
  - clear Hsplit. induction pre as [|p pre IH]; simpl in Hsorted.
    + inversion Hsorted as [|? ? _ Hb]; subst.
      rewrite Forall_forall in Hb. specialize (Hb s Hin). lia.
    + inversion Hsorted; subst. inversion Hpre; subst. apply IH; assumption.
Qed.

End DecoderFacts.

(** C9: the decoder reports a shift exactly when it reports a plaintext; a
    reported shift lies in [0, 25] and the reported plaintext is the
    ciphertext decrypted with that shift. *)
Theorem best_shift_matches_best_text (U : UnicodeData) (text : str) :
  exists bt bs atts,
    brute_force_decrypt U text = Ok (bt, bs, atts)
    /\ (bs = None <-> bt = None)
    /\ (forall s, bs = Some s ->
          0 <= s <= 25 /\ bt = Some (decrypt_text U text s)).
Proof.
  destruct (brute_force_decrypt_run U text) as [st [Hrun [_ Hbest]]].
  exists (best_text st), (best_shift st). eexists. split; [exact Hrun|].
  destruct (best_shift st) as [b|].
  - destruct Hbest as [Htx [_ [_ [pre [post [Hsplit _]]]]]].
    split; [rewrite Htx; split; discriminate|].
    intros s [= <-]. split; [|exact Htx].
    assert (Hin : In b (range 26)).
    { rewrite Hsplit. apply in_or_app. right. left. reflexivity. }
    apply range_spec in Hin. lia.
  - destruct Hbest as [Htx _].
    split; [split; intros _; [exact Htx | reflexivity]|]. discriminate.
Qed.

(** [no_signal], decided by running the scorer on the 26 candidates. *)
Lemma no_signal_check (U : UnicodeData) (text : str) :
  forallb (fun s => match calculate_word_score U (decrypt_text U text s) with
                    | Ok q => negb (gt q 0)
                    | Raise _ => true
                    end) (range 26) = true ->
  no_signal U text.
Proof.
  intros H s q Hs Hq Hpos.
  pose proof (range_forallb _ 26 H s ltac:(lia)) as Hc. cbv beta in Hc.
  rewrite Hq in Hc. apply negb_true_iff, gt_false in Hc.
  apply (Qlt_not_le _ _ Hpos), Hc.
Qed.

Lemma empty_no_signal (U : UnicodeData) : lower U [] = [] -> no_signal U [].
Proof.
  intros Hlow s q _ Hq Hpos.
  unfold decrypt_text, encrypt_text, calculate_word_score in Hq.
  simpl map in Hq. rewrite Hlow in Hq. simpl in Hq.
  injection Hq as <-. revert Hpos. discriminate.
Qed.

Lemma no_signal_not_found (U : UnicodeData) (text : str) :
  no_signal U text -> not_found U text.
Proof.
  intros Hno.
  assert (Hzero : forall s, 0 <= s <= 25 -> shift_score U text s = 0%Q).
  { intros s Hs. unfold shift_score. apply score_of_zero. intros Hpos.
    exact (Hno s _ Hs (calculate_word_score_eq U _) Hpos). }
  destruct (brute_force_decrypt_run U text) as [st [Hrun [_ Hbest]]].
  destruct (best_shift st) as [b|].
  - exfalso. destruct Hbest as [_ [_ [Hpos [pre [post [Hsplit _]]]]]].
    assert (Hin : In b (range 26)).
    { rewrite Hsplit. apply in_or_app. right. left. reflexivity. }
    apply range_spec in Hin. rewrite Hzero in Hpos by lia.
    revert Hpos. discriminate.
  - destruct Hbest as [Htx _]. rewrite Htx in Hrun.
    eexists. split; [exact Hrun|]. split.
    + unfold len. rewrite sort_desc_length, length_map. reflexivity.
    + rewrite Forall_forall. intros a Ha.
      destruct (proj1 (in_attempts U text a) Ha) as [s [Hs ->]].
      apply Hzero, Hs.
Qed.

(** C3: when no shift scores strictly above 0.0, the decoder returns no best
    shift and no best text, with 26 attempts of score 0.0, and raises
    nothing; the empty ciphertext is such an input (lower-casing the empty
    string gives the empty string). *)
Theorem brute_force_no_signal (U : UnicodeData) :
  (forall text, no_signal U text -> not_found U text)
  /\ (lower U [] = [] -> not_found U []).
Proof.
  split.
  - apply no_signal_not_found.
  - intros H. apply no_signal_not_found, empty_no_signal, H.
Qed.

Lemma brute_force_no_signal_witness :
  no_signal latin1 (lit "xqzvbk jjww pfvv")
  /\ not_found latin1 (lit "xqzvbk jjww pfvv")
  /\ lower latin1 [] = []
  /\ not_found latin1 [].
Proof.
  assert (H : no_signal latin1 (lit "xqzvbk jjww pfvv")).
  { apply no_signal_check. vm_compute. reflexivity. }
  split; [exact H|].
  split; [apply (proj1 (brute_force_no_signal latin1)), H|].
  split; [reflexivity|].
  apply (proj2 (brute_force_no_signal latin1)). reflexivity.
Defined.

(** ** Ranking and ties *)

(** C2, as amended: the attempts are sorted by score descending, ties by
    shift ascending; of the shifts that share the best score the lowest
    sorts first, and it is the reported best shift when that score is
    strictly greater than 0.0; when the best score is 0.0 no best shift is
    reported. *)
Theorem attempts_ranked_with_positive_ties (U : UnicodeData) (text : str) :
  exists bt bs atts,
    brute_force_decrypt U text = Ok (bt, bs, atts)
    /\ StronglySorted (ranked a_score a_shift) atts
    /\ tie_rule (fun q => (0 < q)%Q) bs atts
    /\ silent_at_zero bs atts.
Proof.
  destruct (brute_force_decrypt_run U text) as [st [Hrun [_ Hbest]]].
  exists (best_text st), (best_shift st). eexists. split; [exact Hrun|].
  split; [apply attempts_ranked|].
  clear Hrun. split; [|intros a [_ [Hmax _]] Hzero].
  2:{ destruct (best_shift st) as [b|]; [exfalso | reflexivity].
      destruct Hbest as [_ [_ [Hpos [pre [post [Hsplit _]]]]]].
      assert (Hb : 0 <= b <= 25).
      { assert (Hin' : In b (range 26)).
        { rewrite Hsplit. apply in_or_app. right. left. reflexivity. }
        apply range_spec in Hin'. lia. }
      assert (Hinb :
        In (attempt_at U text b)
           (sort_desc a_score (map (attempt_at U text) (range 26)))).
      { apply (proj2 (in_attempts U text _)). exists b.
        split; [exact Hb | reflexivity]. }
      pose proof (Hmax _ Hinb) as Hle.
      change (shift_score U text b <= a_score a)%Q in Hle.
      rewrite Hzero in Hle. exact (Qlt_not_le _ _ Hpos Hle). }
  intros a1 a2 [Hin [Hmax Hleast]] _ _ _. split.
  - intros Hpos.
    destruct (proj1 (in_attempts U text a1) Hin) as [s [Hs ->]].
    change (0 < score_of U (decrypt_text U text s))%Q in Hpos.
    destruct (best_shift st) as [b|].
    + destruct Hbest as [_ [_ [_ [pre [post [Hsplit [Hpre Hpost]]]]]]].
      assert (Hb : 0 <= b <= 25).
      { assert (Hin' : In b (range 26)).
        { rewrite Hsplit. apply in_or_app. right. left. reflexivity. }
        apply range_spec in Hin'. lia. }
      assert (Hinb :
        In (attempt_at U text b)
           (sort_desc a_score (map (attempt_at U text) (range 26)))).
      { apply (proj2 (in_attempts U text _)). exists b.
        split; [exact Hb | reflexivity]. }
      pose proof (Hmax _ Hinb) as Hbs.
      change (score_of U (decrypt_text U text b)
              <= score_of U (decrypt_text U text s))%Q in Hbs.
      pose proof (first_best_is_least U text b pre post s Hsplit Hpre Hs Hbs)
        as Hle.
      assert (Hsb : (score_of U (decrypt_text U text s)
                     <= score_of U (decrypt_text U text b))%Q).
      { assert (Hins : In s (pre ++ b :: post)).
        { rewrite <- Hsplit. apply range_spec. lia. }
        rewrite Forall_forall in Hpre, Hpost.
        apply in_app_or in Hins. destruct Hins as [H|[<-|H]].
        - apply Qlt_le_weak, Hpre, H.
        - apply Qle_refl.
        - apply Hpost, H. }
      pose proof (Hleast _ Hinb (Qle_antisym _ _ Hbs Hsb)) as Hge.
      change (s <= b) in Hge. change (Some b = Some s). f_equal. lia.
    + exfalso. destruct Hbest as [_ [_ Hall]].
      rewrite Forall_forall in Hall.
      apply (Qlt_not_le _ _ Hpos), Hall, range_spec. lia.
  - apply (ranked_head a_score a_shift); [apply attempts_ranked | | | ];
      assumption.
Qed.

(** C2, as stated, fails: on the empty ciphertext all 26 shifts tie at the
    best score 0.0 and shift 0 sorts first, but no best shift is reported. *)
Lemma tie_rule_fails_on_empty_text :
  ~ ranked_with_ties (fun _ => True) latin1 [].
Proof.
  intros [bt [bs [atts [Hrun [_ Htie]]]]].
  vm_compute in Hrun. injection Hrun as _ <- <-.
  destruct (Htie (0, [], 0%Q) (1, [], 0%Q)) as [Hbs _].
  - split; [left; reflexivity|]. split.
    + intros b Hb. simpl in Hb.
      repeat (destruct Hb as [<-|Hb]; [discriminate|]). contradiction.
    + intros b Hb _. simpl in Hb.
      repeat (destruct Hb as [<-|Hb]; [discriminate|]). contradiction.
  - right. left. reflexivity.
  - reflexivity.
  - reflexivity.
  - specialize (Hbs I). discriminate.
Qed.

(** Two shifts of identical non-zero score: the ciphertext is ["the"]
    shifted by 3 followed by ["and"] shifted by 5, so shifts 3 and 5 both
    score 1/2 and every other shift scores 0.0. *)
Example tie_break_scores :
  let c := encrypt_text latin1 (lit "the") 3 ++ lit " "
           ++ encrypt_text latin1 (lit "and") 5 in
  exists rest,
    brute_force_decrypt latin1 c
    = Ok (Some (lit "the cpf"), Some 3,
          (3, lit "the cpf", 1 # 2) :: (5, lit "rfc and", 1 # 2) :: rest)
    /\ Forall (fun a => a_score a = 0%Q) rest.
Proof.
  eexists. split; [vm_compute; reflexivity|].
  repeat (constructor; [reflexivity|]). constructor.
Qed.

(** On that ciphertext the tie rule applies to shifts 3 and 5: the lower
    shift is reported and is the first attempt.  On the empty ciphertext the
    best score is 0.0, at shift 0, and no shift is reported. *)
Lemma attempts_ranked_with_positive_ties_witness :
  let c := encrypt_text latin1 (lit "the") 3 ++ lit " "
           ++ encrypt_text latin1 (lit "and") 5 in
  (exists bt bs atts,
     brute_force_decrypt latin1 c = Ok (bt, bs, atts)
     /\ lowest_best atts (3, lit "the cpf", 1 # 2)
     /\ In (5, lit "rfc and", 1 # 2) atts
     /\ bs = Some 3
     /\ exists rest, atts = (3, lit "the cpf", 1 # 2) :: rest)
  /\ (exists bt bs atts,
        brute_force_decrypt latin1 [] = Ok (bt, bs, atts)
        /\ lowest_best atts (0, [], 0%Q)
        /\ bs = None).
Proof.
  intros c. split.
  2:{ destruct (attempts_ranked_with_positive_ties latin1 [])
        as [bt [bs [atts [Hrun [_ [_ Hzero]]]]]].
      exists bt, bs, atts. split; [exact Hrun|].
      assert (Hlow : lowest_best atts (0, [], 0%Q)).
      { pose proof Hrun as Hrun'. vm_compute in Hrun'.
        injection Hrun' as _ _ <-.
        split; [left; reflexivity|]. split.
        - intros b Hb. simpl in Hb.
          repeat (destruct Hb as [<-|Hb]; [discriminate|]). contradiction.
        - intros b Hb _. simpl in Hb.
          repeat (destruct Hb as [<-|Hb]; [discriminate|]). contradiction. }
      split; [exact Hlow|]. apply (Hzero _ Hlow). reflexivity. }
  destruct (attempts_ranked_with_positive_ties latin1 c)
    as [bt [bs [atts [Hrun [_ [Htie _]]]]]].
  exists bt, bs, atts. split; [exact Hrun|].
  assert (Hatts : exists rest,
            atts = (3, lit "the cpf", 1 # 2)
                   :: (5, lit "rfc and", 1 # 2) :: rest
            /\ Forall (fun a => a_score a = 0%Q) rest).
  { destruct tie_break_scores as [rest [Hrun' Hrest]].
    fold c in Hrun'. rewrite Hrun in Hrun'. injection Hrun' as _ _ ->.
    exists rest. split; [reflexivity | exact Hrest]. }
  destruct Hatts as [rest [-> Hrest]]. rewrite Forall_forall in Hrest.
  assert (Hlow : lowest_best
                   ((3, lit "the cpf", 1 # 2)
                    :: (5, lit "rfc and", 1 # 2) :: rest)
                   (3, lit "the cpf", 1 # 2)).
  { split; [left; reflexivity|]. split.
    - intros b [<-|[<-|Hb]]; [discriminate | discriminate |].
      rewrite (Hrest b Hb). discriminate.
    - intros b [<-|[<-|Hb]] Heq; [discriminate | discriminate |].
      rewrite (Hrest b Hb) in Heq. discriminate Heq. }
  split; [exact Hlow|]. split; [right; left; reflexivity|].
  destruct (Htie (3, lit "the cpf", 1 # 2) (5, lit "rfc and", 1 # 2))
    as [Hbs Hhead].
  - exact Hlow.
  - right. left. reflexivity.
  - reflexivity.
  - reflexivity.
  - split; [apply Hbs; reflexivity | exact Hhead].
Defined.

(** ** ASCII text

    On ASCII text the program does not depend on the Unicode table: any two
    tables that agree with ASCII give the same results, so such inputs can be
    run with [latin1]. *)


Lemma asciib_spec (c : codepoint) : asciib c = true <-> ascii c.
Proof. unfold asciib, ascii. lia. Qed.

Lemma forallb_ascii (s : str) : forallb asciib s = true -> Forall ascii s.
Proof.
  rewrite forallb_forall, Forall_forall. intros H c Hc.
  apply asciib_spec, H, Hc.
Qed.

Lemma ascii_forallb (f : Z -> bool) :
  forallb f (range 128) = true -> forall c, ascii c -> f c = true.
Proof. intros H c Hc. apply (range_forallb f 128 H). exact Hc. Qed.

Lemma latin1_ascii_compatible : ascii_compatible latin1.
Proof.
  split.
  - intros c Hc. apply eqb_prop.
    revert c Hc. apply ascii_forallb. vm_compute. reflexivity.
  - intros c Hc. apply eqb_prop.
    revert c Hc. apply ascii_forallb. vm_compute. reflexivity.
  - intros c Hc. apply eqb_prop.
    revert c Hc. apply ascii_forallb. vm_compute. reflexivity.
  - intros s Hs. simpl. apply map_ext_in. intros c Hc.
    rewrite Forall_forall in Hs. pose proof (Hs c Hc) as Ha. clear Hc Hs.
    apply Z.eqb_eq. revert c Ha. apply ascii_forallb. vm_compute. reflexivity.
Qed.

Lemma split_from_forall (P : codepoint -> Prop) (cur s : str) :
  Forall P cur -> Forall P s -> Forall (Forall P) (split_from cur s).
Proof.
  revert cur. induction s as [|c s IH]; intros cur Hcur Hs; simpl.
  - destruct cur; constructor; [|constructor].
    apply Forall_rev. exact Hcur.
  - inversion Hs; subst. destruct (isspace c).
    + destruct cur as [|d cur].
      * apply IH; [constructor | assumption].
      * constructor; [apply Forall_rev; exact Hcur|].
        apply IH; [constructor | assumption].
    + apply IH; [constructor|]; assumption.
Qed.

Lemma split_forall (P : codepoint -> Prop) (s : str) :
  Forall P s -> Forall (Forall P) (split s).
Proof. apply split_from_forall. constructor. Qed.

Section Transfer.

Variables U V : UnicodeData.
Hypothesis HU : ascii_compatible U.
Hypothesis HV : ascii_compatible V.

Lemma isalpha_ascii (c : codepoint) : ascii c -> isalpha U c = isalpha V c.
Proof.
  intros Hc. rewrite (ac_isalpha U HU c Hc), (ac_isalpha V HV c Hc).
  reflexivity.
Qed.

Lemma isupper_ascii (c : codepoint) : ascii c -> isupper U c = isupper V c.
Proof.
  intros Hc. rewrite (ac_isupper U HU c Hc), (ac_isupper V HV c Hc).
  reflexivity.
Qed.

Lemma isdigit_ascii (c : codepoint) : ascii c -> isdigit U c = isdigit V c.
Proof.
  intros Hc. rewrite (ac_isdigit U HU c Hc), (ac_isdigit V HV c Hc).
  reflexivity.
Qed.

Lemma lower_ascii (s : str) : Forall ascii s -> lower U s = lower V s.
Proof.
  intros Hs. rewrite (ac_lower U HU s Hs), (ac_lower V HV s Hs). reflexivity.
Qed.

Lemma encrypt_text_ascii (text : str) (n : Z) :
  Forall ascii text -> encrypt_text U text n = encrypt_text V text n.
Proof.
  intros Hs. unfold encrypt_text. apply map_ext_in. intros c Hc.
  rewrite Forall_forall in Hs. unfold encrypt_char.
  rewrite (isalpha_ascii c (Hs c Hc)), (isupper_ascii c (Hs c Hc)).
  reflexivity.
Qed.

Lemma encrypt_text_ascii_closed (text : str) (n : Z) :
  Forall ascii text -> Forall ascii (encrypt_text U text n).
Proof.
  intros Hs. unfold encrypt_text. rewrite Forall_map.
  eapply Forall_impl; [|exact Hs]. intros c Hc.
  destruct (isalpha U c) eqn:E.
  - pose proof (encrypt_char_range U (n mod 26) c E). unfold ascii. lia.
  - rewrite encrypt_char_not_alpha by exact E. exact Hc.
Qed.

Lemma calculate_word_score_ascii (text : str) :
  Forall ascii text ->
  calculate_word_score U text = calculate_word_score V text.
Proof.
  intros Hs. unfold calculate_word_score.
  rewrite (lower_ascii text Hs). reflexivity.
Qed.

Lemma check_english_words_ascii (text : str) (m : Z) :
  Forall ascii text ->
  check_english_words U text m = check_english_words V text m.
Proof.
  intros Hs. unfold check_english_words.
  rewrite (lower_ascii text Hs). reflexivity.
Qed.

Lemma bf_loop_ascii (text : str) (shifts : list Z) (st : bf_state) :
  Forall ascii text -> bf_loop U text st shifts = bf_loop V text st shifts.
Proof.
  intros Hs. revert st. induction shifts as [|s rest IH]; intros st; simpl;
    [reflexivity|].
  assert (Hstep : bf_step U text st s = bf_step V text st s).
  { unfold bf_step, decrypt_text.
    rewrite (encrypt_text_ascii text (- s) Hs).
    assert (Hd : Forall ascii (encrypt_text V text (- s))).
    { rewrite <- (encrypt_text_ascii text (- s) Hs).
      apply encrypt_text_ascii_closed, Hs. }
    rewrite (check_english_words_ascii _ 3 Hd).
    rewrite (calculate_word_score_ascii _ Hd). reflexivity. }
  rewrite Hstep. destruct (bf_step V text st s); simpl; [apply IH|reflexivity].
Qed.

Lemma brute_force_decrypt_ascii (text : str) :
  Forall ascii text -> brute_force_decrypt U text = brute_force_decrypt V text.
Proof.
  intros Hs. unfold brute_force_decrypt.
  rewrite (bf_loop_ascii text (range 26) bf_init Hs). reflexivity.
Qed.

End Transfer.

(** C1: the plaintext ["the message is secret and this is for the"], built
    from reference words, shifted by 7, is decoded to shift 7 and to the
    plaintext itself. *)
Theorem decode_constructed_plaintext (U : UnicodeData) :
  ascii_compatible U ->
  let p := lit "the message is secret and this is for the" in
  let c := encrypt_text U p 7 in
  exists atts, brute_force_decrypt U c = Ok (Some p, Some 7, atts).
Proof.
  intros HU p c. subst c.
  assert (Hp : Forall ascii p) by (apply forallb_ascii; reflexivity).
  rewrite (brute_force_decrypt_ascii U latin1 HU latin1_ascii_compatible)
    by (apply encrypt_text_ascii_closed; assumption).
  rewrite (encrypt_text_ascii U latin1 HU latin1_ascii_compatible p 7 Hp).
  eexists. vm_compute. reflexivity.
Qed.

Lemma decode_constructed_plaintext_witness :
  ascii_compatible latin1
  /\ exists atts,
       brute_force_decrypt latin1
         (encrypt_text latin1
            (lit "the message is secret and this is for the") 7)
       = Ok (Some (lit "the message is secret and this is for the"),
             Some 7, atts).
Proof.
  split; [exact latin1_ascii_compatible|].
  exact (decode_constructed_plaintext latin1 latin1_ascii_compatible).
Defined.

(** ** The text statistics engine *)

Lemma split_from_truthy (cur s : str) :
  Forall (fun w => truthy w = true) (split_from cur s).
Proof.
  assert (Hrev : forall d (l : str), truthy (rev (d :: l)) = true).
  { intros d l. simpl. destruct (rev l); reflexivity. }
  revert cur. induction s as [|c s IH]; intros cur; simpl.
  - destruct cur as [|d cur]; constructor; [apply Hrev | constructor].
  - destruct (isspace c); [|apply IH].
    destruct cur as [|d cur]; [apply IH|].
    constructor; [apply Hrev | apply IH].
Qed.

(** [str.split()] returns no empty string. *)
Lemma split_truthy (s : str) : Forall (fun w => truthy w = true) (split s).
Proof. apply split_from_truthy. Qed.

Section GuardFacts.

Lemma guarded_max_ok {A} (key : A -> Z) (dflt : A) (l : list A) :
  exists x, (if truthy l then max_by key l else Ok dflt) = Ok x.
Proof. destruct l; simpl; eexists; reflexivity. Qed.

Lemma guarded_min_ok (l : list str) :
  Forall (fun w => truthy w = true) l ->
  exists x, (if truthy l then min_by len (filter truthy l) else Ok []) = Ok x.
Proof.
  intros H. destruct l as [|w l]; simpl; [eexists; reflexivity|].
  inversion H as [|? ? Hw _]; subst. rewrite Hw. simpl.
  eexists; reflexivity.
Qed.

Lemma guarded_average_ok {A} (l : list A) (total : Z) :
  exists q, (if truthy l then truediv total (len l) else Ok 0%Q) = Ok q
            /\ (l = [] -> q = 0%Q).
Proof.
  destruct l as [|x l]; simpl truthy; cbv iota.
  - exists 0%Q. split; reflexivity.
  - rewrite truediv_ok by (unfold len; simpl; lia).
    eexists. split; [reflexivity | discriminate].
Qed.

Lemma guarded_percent_ok (part whole : Z) :
  exists q, (if whole >? 0
             then q <- truediv part whole ;; Ok (fmul q 100)
             else Ok 0%Q) = Ok q
            /\ (whole = 0 -> q = 0%Q).
Proof.
  destruct (Z.gtb_spec whole 0) as [Hpos|Hle].
  - rewrite truediv_ok by lia. unfold bind.
    eexists. split; [reflexivity | lia].
  - exists 0%Q. split; reflexivity.
Qed.

Lemma guarded_most_common_ok {A} (l : list A) (c : list (str * Z)) :
  exists m, (if truthy l
             then if truthy c then index0 (most_common_1 c) else Ok ([], 0)
             else Ok ([], 0)) = Ok m.
Proof.
  destruct l; simpl; [eexists; reflexivity|].
  destruct c as [|x c]; simpl; eexists; reflexivity.
Qed.

End GuardFacts.

Section AnalyzerFacts.

Variable U : UnicodeData.

(** [analyze_text] never raises; the fields the claims refer to. *)
Lemma analyze_text_total (text : str) :
  exists r, analyze_text U text = Ok r
    /\ word_count r = len (split text)
    /\ character_count r = len text
    /\ alphabetic_character_count r = count_if (isalpha U) text
    /\ digit_count r = count_if (isdigit U) text
    /\ (split text = [] -> average_word_length r = 0%Q)
    /\ (count_if (isalpha U) text = 0 -> vowel_percentage r = 0%Q).
Proof.
  unfold analyze_text. cbv zeta.
  destruct (guarded_max_ok len [] (split text)) as [lg Hlg].
  destruct (guarded_min_ok (split text) (split_truthy text)) as [sh Hsh].
  destruct (guarded_average_ok (split text) (sum (map len (split text))))
    as [avg [Havg Havg0]].
  destruct (guarded_percent_ok
              (count_if (fun ch => char_in ch vowels) text)
              (count_if (isalpha U) text)) as [vp [Hvp Hvp0]].
  destruct (guarded_most_common_ok (split text)
              (Counter (map (lower U) (split text)))) as [mc Hmc].
  bind_ok Hlg. bind_ok Hsh. bind_ok Havg. bind_ok Hvp. bind_ok Hmc.
  eexists. split; [reflexivity|].
  cbn [word_count character_count alphabetic_character_count digit_count
       average_word_length vowel_percentage].
  repeat split; assumption.
Qed.

(** [full_analysis] never raises; its percentage fields. *)
Lemma full_analysis_total (text : str) :
  exists r g, analyze_text U text = Ok r /\ full_analysis U text = Ok g
    /\ average_word_length (base g) = average_word_length r
    /\ vowel_percentage (base g) = vowel_percentage r
    /\ total_chars g = len text
    /\ (len text = 0 ->
        letter_percentage g = 0%Q /\ digit_percentage g = 0%Q
        /\ space_percentage g = 0%Q).
Proof.
  destruct (analyze_text_total text) as [r [Hr [_ [Hcc _]]]].
  exists r. unfold full_analysis. rewrite Hr. unfold bind. cbv zeta.
  destruct (Z.gtb_spec (len text) 0) as [Hpos|Hle].
  - rewrite !truediv_ok by lia.
    eexists. split; [reflexivity|]. split; [reflexivity|].
    cbn [base total_chars letter_percentage digit_percentage
         space_percentage].
    split; [destruct (truthy (split text)); reflexivity|].
    split; [destruct (truthy (split text)); reflexivity|].
    split; [destruct (truthy (split text)); exact Hcc|]. lia.
  - eexists. split; [reflexivity|]. split; [reflexivity|].
    cbn [base total_chars letter_percentage digit_percentage
         space_percentage].
    split; [destruct (truthy (split text)); reflexivity|].
    split; [destruct (truthy (split text)); reflexivity|].
    split; [destruct (truthy (split text)); exact Hcc|].
    intros _. repeat split; reflexivity.
Qed.

End AnalyzerFacts.

(** C8: every percentage-style field guards its division.  On the empty
    text, [analyze_text] and [full_analysis] return, with vowel percentage,
    average word length and letter, digit and space percentages all 0.0; on
    every text they return, the vowel percentage is 0.0 when there is no
    alphabetic character, the average word length is 0.0 when there is no
    token, and the letter, digit and space percentages are 0.0 when there is
    no character. *)
Theorem percentage_guards (U : UnicodeData) :
  (exists r g,
     analyze_text U [] = Ok r /\ full_analysis U [] = Ok g
     /\ vowel_percentage r = 0%Q /\ average_word_length r = 0%Q
     /\ vowel_percentage (base g) = 0%Q /\ average_word_length (base g) = 0%Q
     /\ letter_percentage g = 0%Q /\ digit_percentage g = 0%Q
     /\ space_percentage g = 0%Q)
  /\ (forall text, exists r g,
        analyze_text U text = Ok r /\ full_analysis U text = Ok g
        /\ (alphabetic_character_count r = 0 ->
            vowel_percentage r = 0%Q /\ vowel_percentage (base g) = 0%Q)
        /\ (word_count r = 0 ->
            average_word_length r = 0%Q
            /\ average_word_length (base g) = 0%Q)
        /\ (total_chars g = 0 ->
            letter_percentage g = 0%Q /\ digit_percentage g = 0%Q
            /\ space_percentage g = 0%Q)).
Proof.
  split.
  - eexists. eexists. split; [reflexivity|]. split; [reflexivity|].
    repeat split; reflexivity.
  - intros text.
    destruct (analyze_text_total U text)
      as [r [Hr [Hwc [_ [Hac [_ [Havg Hvp]]]]]]].
    destruct (full_analysis_total U text)
      as [r' [g [Hr' [Hg [Hgavg [Hgvp [Htot Hpct]]]]]]].
    rewrite Hr in Hr'. injection Hr' as <-.
    exists r, g. split; [exact Hr|]. split; [exact Hg|].
    split; [|split].
    + intros H0. rewrite Hgvp. rewrite Hac in H0. split; apply Hvp, H0.
    + intros H0. rewrite Hgavg. rewrite Hwc in H0.
      split; apply Havg, len_zero, H0.
    + intros H0. apply Hpct. rewrite <- Htot. exact H0.
Qed.

Section AnalyzerTransfer.

Variables U V : UnicodeData.
Hypothesis HU : ascii_compatible U.
Hypothesis HV : ascii_compatible V.

Lemma count_if_ext_in {A} (p q : A -> bool) (l : list A) :
  (forall x, In x l -> p x = q x) -> count_if p l = count_if q l.
Proof.
  intros H. unfold count_if. rewrite (filter_ext_in p q l H). reflexivity.
Qed.

Lemma is_palindrome_word_ascii (w : str) :
  Forall ascii w -> is_palindrome_word U w = is_palindrome_word V w.
Proof.
  intros Hw. rewrite Forall_forall in Hw.
  assert (Hclean : clean_alpha U w = clean_alpha V w).
  { unfold clean_alpha.
    rewrite (filter_ext_in (isalpha U) (isalpha V) w)
      by (intros c Hc; apply (isalpha_ascii U V HU HV), Hw, Hc).
    f_equal. apply map_ext_in. intros c Hc.
    apply filter_In in Hc. destruct Hc as [Hc _].
    apply (lower_ascii U V HU HV). constructor; [apply Hw, Hc | constructor]. }
  unfold is_palindrome_word. rewrite Hclean. reflexivity.
Qed.

Lemma analyze_text_ascii (text : str) :
  Forall ascii text -> analyze_text U text = analyze_text V text.
Proof.
  intros Hs.
  pose proof (split_forall ascii text Hs) as Hwords.
  rewrite Forall_forall in Hs, Hwords.
  unfold analyze_text. cbv zeta.
  rewrite (count_if_ext_in (isalpha U) (isalpha V) text)
    by (intros c Hc; apply (isalpha_ascii U V HU HV), Hs, Hc).
  rewrite (count_if_ext_in (isdigit U) (isdigit V) text)
    by (intros c Hc; apply (isdigit_ascii U V HU HV), Hs, Hc).
  rewrite (map_ext_in (lower U) (lower V) (split text))
    by (intros w Hw; apply (lower_ascii U V HU HV), Hwords, Hw).
  rewrite (filter_ext_in (is_palindrome_word U) (is_palindrome_word V)
             (split text))
    by (intros w Hw; apply is_palindrome_word_ascii, Hwords, Hw).
  reflexivity.
Qed.

End AnalyzerTransfer.

(** C7, as amended: the literal has 7 words (The, cat, sat., 2, Dogs, ran,
    racecar!), three of them of length 3, the one palindrome word
    ["racecar!"] and one digit. *)
Theorem literal_statistics_seven_words (U : UnicodeData) :
  ascii_compatible U -> literal_statistics 7 U.
Proof.
  intros HU. unfold literal_statistics.
  rewrite (analyze_text_ascii U latin1 HU latin1_ascii_compatible)
    by (apply forallb_ascii; reflexivity).
  eexists. split; [vm_compute; reflexivity|].
  repeat split; reflexivity.
Qed.

Lemma literal_statistics_seven_words_witness :
  ascii_compatible latin1 /\ literal_statistics 7 latin1.
Proof.
  split; [exact latin1_ascii_compatible|].
  exact (literal_statistics_seven_words latin1 latin1_ascii_compatible).
Defined.

(** C7, as stated, fails: the word count of the literal is not 6. *)
Lemma literal_statistics_not_six_words : ~ literal_statistics 6 latin1.
Proof.
  intros [r [Hr [Hn _]]]. vm_compute in Hr. injection Hr as <-.
  discriminate Hn.
Qed.

(** ** The score as the specification words it *)

Section MapFacts.

Variable f : codepoint -> codepoint.

Lemma split_from_map (cur s : str) :
  (forall c, isspace (f c) = isspace c) ->
  split_from (map f cur) (map f s) = map (map f) (split_from cur s).
Proof.
  intros Hf. revert cur. induction s as [|c s IH]; intros cur; simpl.
  - destruct cur as [|d cur]; [reflexivity|]. simpl map at 1.
    cbv iota. rewrite <- map_rev. reflexivity.
  - rewrite Hf. destruct (isspace c).
    + destruct cur as [|d cur]; [apply (IH [])|]. simpl map at 1. cbv iota.
      rewrite <- map_rev. simpl map at 3. f_equal. apply (IH []).
    + apply (IH (c :: cur)).
Qed.

Lemma lstrip_map (chars w : str) :
  (forall c, char_in (f c) chars = char_in c chars) ->
  lstrip chars (map f w) = map f (lstrip chars w).
Proof.
  intros Hf. induction w as [|c w IH]; simpl; [reflexivity|].
  rewrite Hf. destruct (char_in c chars); [exact IH | reflexivity].
Qed.

Lemma strip_map (chars w : str) :
  (forall c, char_in (f c) chars = char_in c chars) ->
  strip chars (map f w) = map f (strip chars w).
Proof.
  intros Hf. unfold strip, rstrip.
  rewrite (lstrip_map chars w Hf), <- map_rev.
  rewrite (lstrip_map chars _ Hf), map_rev. reflexivity.
Qed.

End MapFacts.

Lemma byte_forallb (f : Z -> bool) :
  forallb f (range 256) = true -> forall c, 0 <= c < 256 -> f c = true.
Proof. intros H c Hc. apply (range_forallb f 256 H). exact Hc. Qed.

Lemma l1_isupper_byte (c : codepoint) : l1_isupper c = true -> 0 <= c < 256.
Proof. unfold l1_isupper, between. lia. Qed.

(** A property of a character and its lower case that holds trivially for
    caseless characters, checked on the Latin-1 capitals by running it. *)
Lemma l1_tolower_preserves (p : codepoint -> bool) :
  forallb (fun c => Bool.eqb (p (l1_tolower c)) (p c)) (range 256) = true ->
  forall c, p (l1_tolower c) = p c.
Proof.
  intros H c. destruct (l1_isupper c) eqn:E.
  - apply eqb_prop. apply (byte_forallb _ H), l1_isupper_byte, E.
  - unfold l1_tolower. rewrite E. reflexivity.
Qed.

Lemma latin1_lower_respects_tokens : lower_respects_tokens latin1.
Proof.
  split; simpl.
  - intros t. apply (split_from_map l1_tolower [] t).
    apply l1_tolower_preserves. vm_compute. reflexivity.
  - intros w. apply strip_map.
    apply (l1_tolower_preserves (fun c => char_in c punctuation)).
    vm_compute. reflexivity.
  - intros w. destruct w; simpl; split; congruence.
Qed.

(** C6: the score is the number of whitespace-split, punctuation-stripped,
    lower-cased non-empty tokens found in the reference word set divided by
    the number of such tokens, 0.0 when there is none; it lies in
    [0.0, 1.0]. *)
Theorem calculate_word_score_spec (U : UnicodeData) (text : str) :
  lower_respects_tokens U ->
  calculate_word_score U text = Ok (spec_score U text)
  /\ (0 <= spec_score U text <= 1)%Q.
Proof.
  intros [Hsplit Hstrip Hempty].
  assert (Htruthy : forall w, truthy (lower U w) = truthy w).
  { intros w. destruct (truthy w) eqn:E.
    - apply truthy_true. apply truthy_true in E. rewrite Hempty. exact E.
    - apply truthy_false. apply truthy_false in E. rewrite Hempty. exact E. }
  assert (Hclean :
    filter truthy (map (strip punctuation) (split (lower U text)))
    = spec_cleaned_tokens U text).
  { unfold spec_cleaned_tokens. rewrite Hsplit, map_map.
    rewrite (map_ext _ (fun w => lower U (strip punctuation w)))
      by (intros w; apply Hstrip).
    generalize (split text) as ws.
    induction ws as [|w ws IH]; simpl; [reflexivity|].
    rewrite Htruthy. destruct (truthy (strip punctuation w)); simpl;
      rewrite IH; reflexivity. }
  assert (Heq : calculate_word_score U text = Ok (spec_score U text)).
  { unfold calculate_word_score, spec_score. cbv zeta. rewrite Hclean.
    assert (Tw : spec_cleaned_tokens U text <> [] ->
                 truthy (split (lower U text)) = true).
    { intros Hne. destruct (split (lower U text)); [|reflexivity].
      exfalso. apply Hne. rewrite <- Hclean. reflexivity. }
    destruct (spec_cleaned_tokens U text) as [|c cs].
    - destruct (truthy (split (lower U text))); reflexivity.
    - rewrite Tw by discriminate. simpl negb. cbv iota. rewrite sum_ones.
      rewrite truediv_ok; [reflexivity|]. unfold len. simpl. lia. }
  split; [exact Heq|].
  destruct (calculate_word_score_total U text) as [q [Hq [Hb _]]].
  rewrite Heq in Hq. injection Hq as <-. exact Hb.
Qed.

Lemma calculate_word_score_spec_witness :
  lower_respects_tokens latin1
  /\ calculate_word_score latin1 (lit "The secret, is OUT!")
     = Ok (spec_score latin1 (lit "The secret, is OUT!"))
  /\ (0 <= spec_score latin1 (lit "The secret, is OUT!") <= 1)%Q.
Proof.
  split; [exact latin1_lower_respects_tokens|].
  exact (calculate_word_score_spec latin1 (lit "The secret, is OUT!")
           latin1_lower_respects_tokens).
Defined.

(** Three of the four cleaned tokens (the, secret, is, out) are reference
    words. *)
Example score_three_quarters :
  calculate_word_score latin1 (lit "The secret, is OUT!") = Ok (3 # 4)%Q
  /\ spec_score latin1 (lit "The secret, is OUT!") = (3 # 4)%Q.
Proof. split; reflexivity. Qed.

(** * Further properties *)

(** ** The shift transform: composition *)

Section ShiftComposition.

Variable U : UnicodeData.
Hypothesis HU : ascii_compatible U.

(** A shifted letter is an ASCII letter of the case the loop chose. *)
Lemma encrypt_char_alpha (k : Z) (c : codepoint) :
  isalpha U c = true ->
  let base := if isupper U c then 65 else 97 in
  encrypt_char U k c = (c - base + k) mod 26 + base
  /\ isalpha U (encrypt_char U k c) = true
  /\ isupper U (encrypt_char U k c) = isupper U c.
Proof.
  intros Ea base. unfold encrypt_char. rewrite Ea. fold base.
  pose proof (Z.mod_pos_bound (c - base + k) 26 ltac:(lia)) as Hm.
  assert (Hb : base = 65 \/ base = 97)
    by (subst base; destruct (isupper U c); lia).
  assert (Hascii : ascii ((c - base + k) mod 26 + base))
    by (unfold ascii; lia).
  split; [reflexivity|].
  rewrite (ac_isalpha U HU _ Hascii), (ac_isupper U HU _ Hascii).
  unfold between. subst base. destruct (isupper U c); split; lia.
Qed.

Lemma encrypt_char_compose (a b : Z) (c : codepoint) :
  encrypt_char U (b mod 26) (encrypt_char U (a mod 26) c)
  = encrypt_char U ((a + b) mod 26) c.
Proof.
  destruct (isalpha U c) eqn:Ea.
  - destruct (encrypt_char_alpha (a mod 26) c Ea) as [He [Ea' Eu']].
    destruct (encrypt_char_alpha (b mod 26) _ Ea') as [He' _].
    destruct (encrypt_char_alpha ((a + b) mod 26) c Ea) as [He'' _].
    rewrite He', Eu', He'', He.
    set (base := if isupper U c then 65 else 97).
    f_equal. generalize (c - base). intros x.
    Z.div_mod_to_equations. lia.
  - rewrite !encrypt_char_not_alpha; [reflexivity | exact Ea | exact Ea |].
    rewrite encrypt_char_not_alpha; exact Ea.
Qed.

Lemma encrypt_text_add (text : str) (a b : Z) :
  encrypt_text U (encrypt_text U text a) b = encrypt_text U text (a + b).
Proof.
  unfold encrypt_text. rewrite map_map.
  apply map_ext. intros c. apply encrypt_char_compose.
Qed.

End ShiftComposition.

(** X1: shifting by [a] and then by [b] is shifting by [a + b], on every
    text (a letter outside A-Z and a-z is moved into a-z or A-Z by the
    first shift and stays there). *)
Theorem encrypt_text_compose (U : UnicodeData) (text : str) (a b : Z) :
  ascii_compatible U ->
  encrypt_text U (encrypt_text U text a) b = encrypt_text U text (a + b).
Proof.
  intros HU. unfold encrypt_text. rewrite map_map.
  apply map_ext. intros c. apply encrypt_char_compose, HU.
Qed.

Lemma encrypt_text_compose_witness :
  ascii_compatible latin1
  /\ encrypt_text latin1 (encrypt_text latin1 (lit "Attack at Dawn!") 20) 9
     = encrypt_text latin1 (lit "Attack at Dawn!") (20 + 9).
Proof.
  split; [exact latin1_ascii_compatible|].
  exact (encrypt_text_compose latin1 (lit "Attack at Dawn!") 20 9
           latin1_ascii_compatible).
Defined.

(** X2: the result has the length of the text, and at each position a
    character [str.isalpha] rejects is kept, a letter [str.isupper] accepts
    becomes one of A-Z, any other letter becomes one of a-z. *)
Theorem encrypt_text_positions (U : UnicodeData) (text : str) (n : Z) :
  length (encrypt_text U text n) = length text
  /\ forall (i : nat) (c : codepoint),
       nth_error text i = Some c ->
       exists e, nth_error (encrypt_text U text n) i = Some e
         /\ (isalpha U c = false -> e = c)
         /\ (isalpha U c = true -> isupper U c = true -> 65 <= e <= 90)
         /\ (isalpha U c = true -> isupper U c = false -> 97 <= e <= 122).
Proof.
  split; [unfold encrypt_text; apply length_map|].
  intros i c Hi. exists (encrypt_char U (n mod 26) c).
  split; [unfold encrypt_text; rewrite nth_error_map, Hi; reflexivity|].
  unfold encrypt_char.
  split; [intros ->; reflexivity|].
  split; intros -> ->;
    match goal with
    | |- context [?x mod 26] => pose proof (Z.mod_pos_bound x 26 ltac:(lia))
    end; lia.
Qed.

Lemma encrypt_text_positions_witness :
  nth_error (lit "Ab 1") 0 = Some 65
  /\ length (encrypt_text latin1 (lit "Ab 1") 30) = length (lit "Ab 1")
  /\ exists e, nth_error (encrypt_text latin1 (lit "Ab 1") 30) 0 = Some e
       /\ (isalpha latin1 65 = false -> e = 65)
       /\ (isalpha latin1 65 = true -> isupper latin1 65 = true ->
           65 <= e <= 90)
       /\ (isalpha latin1 65 = true -> isupper latin1 65 = false ->
           97 <= e <= 122).
Proof.
  split; [reflexivity|].
  destruct (encrypt_text_positions latin1 (lit "Ab 1") 30) as [Hlen Hpos].
  split; [exact Hlen|]. exact (Hpos 0%nat 65 eq_refl).
Defined.

(** X3: a ciphertext survives the round trip in both directions: whatever
    [encrypt_text] produced is recovered by encrypting then decrypting, and
    by decrypting then encrypting, with any shift. *)
Theorem ciphertext_round_trip (U : UnicodeData) (text : str) (k n : Z) :
  ascii_compatible U ->
  let c := encrypt_text U text k in
  decrypt_text U (encrypt_text U c n) n = c
  /\ encrypt_text U (decrypt_text U c n) n = c.
Proof.
  intros HU c. subst c. unfold decrypt_text.
  rewrite !(encrypt_text_add U HU).
  split; f_equal; lia.
Qed.

Lemma ciphertext_round_trip_witness :
  ascii_compatible latin1
  /\ decrypt_text latin1
       (encrypt_text latin1 (encrypt_text latin1 [e_acute; 32; 90] 4) 11) 11
     = encrypt_text latin1 [e_acute; 32; 90] 4
  /\ encrypt_text latin1
       (decrypt_text latin1 (encrypt_text latin1 [e_acute; 32; 90] 4) 11) 11
     = encrypt_text latin1 [e_acute; 32; 90] 4.
Proof.
  split; [exact latin1_ascii_compatible|].
  exact (ciphertext_round_trip latin1 [e_acute; 32; 90] 4 11
           latin1_ascii_compatible).
Defined.

(** X4: on a text whose letters are all in A-Z and a-z, two shifts that add
    up to a multiple of 26 undo each other (a shift and its negation, ROT13
    applied twice, a shift by 0 or 26 after any shift by a multiple of
    26). *)
Theorem opposite_shifts_cancel (U : UnicodeData) (text : str) (a b : Z) :
  ascii_compatible U ->
  Forall (fun c => isalpha U c = true ->
                   between 65 90 c || between 97 122 c = true) text ->
  (a + b) mod 26 = 0 ->
  encrypt_text U (encrypt_text U text a) b = text.
Proof.
  intros HU Hlatin Hab.
  rewrite (encrypt_text_add U HU).
  rewrite encrypt_text_mod, Hab.
  rewrite <- (round_trip_latin U text 0 HU Hlatin) at 2.
  unfold decrypt_text. rewrite (encrypt_text_add U HU).
  reflexivity.
Qed.

Lemma opposite_shifts_cancel_witness :
  ascii_compatible latin1
  /\ Forall (fun c => isalpha latin1 c = true ->
                      between 65 90 c || between 97 122 c = true)
            (lit "Meet me at 9!")
  /\ (13 + 13) mod 26 = 0
  /\ encrypt_text latin1 (encrypt_text latin1 (lit "Meet me at 9!") 13) 13
     = lit "Meet me at 9!".
Proof.
  assert (H : Forall (fun c => isalpha latin1 c = true ->
                      between 65 90 c || between 97 122 c = true)
                     (lit "Meet me at 9!")).
  { repeat constructor; vm_compute; intros; congruence. }
  split; [exact latin1_ascii_compatible|]. split; [exact H|].
  split; [reflexivity|].
  exact (opposite_shifts_cancel latin1 (lit "Meet me at 9!") 13 13
           latin1_ascii_compatible H eq_refl).
Defined.

(** ** Recovering a shift from a pair of texts *)

Section ShiftRecovery.

Variable U : UnicodeData.

Lemma shift_scan_no_letters (original encrypted : str)
  (pairs : list (Z * Z)) :
  Forall (fun p => isalpha U (fst p) && isalpha U (snd p) = false) pairs ->
  shift_scan U original encrypted pairs = None.
Proof.
  induction 1 as [|[o e] rest Hp _ IH]; simpl; [reflexivity|].
  simpl in Hp. rewrite Hp. exact IH.
Qed.

Hypothesis HU : ascii_compatible U.

Lemma shift_scan_finds (original : str) (n : Z) (l : str) :
  existsb (isalpha U) l = true ->
  shift_scan U original (encrypt_text U original n)
    (combine l (map (encrypt_char U (n mod 26)) l))
  = Some (n mod 26).
Proof.
  induction l as [|c l IH]; simpl; [discriminate|].
  destruct (isalpha U c) eqn:Ea; simpl.
  - intros _.
    destruct (encrypt_char_alpha U HU (n mod 26) c Ea) as [He [-> ->]].
    rewrite eqb_reflx. simpl negb. cbv iota.
    assert (Hs : (encrypt_char U (n mod 26) c - c) mod 26 = n mod 26).
    { rewrite He. set (base := if isupper U c then 65 else 97).
      clearbody base. Z.div_mod_to_equations. lia. }
    assert (Heq : str_eqb (encrypt_text U original (n mod 26))
                          (encrypt_text U original n) = true).
    { apply str_eqb_eq. symmetry. apply encrypt_text_mod. }
    clear He. destruct (isupper U c); rewrite Hs, Heq; reflexivity.
  - exact IH.
Qed.

End ShiftRecovery.

(** X5: if the original has at least one alphabetic character,
    [get_shift_between_texts] recovers the shift of its encryption, reduced
    modulo 26. *)
Theorem get_shift_between_texts_complete
  (U : UnicodeData) (original : str) (n : Z) :
  ascii_compatible U ->
  existsb (isalpha U) original = true ->
  get_shift_between_texts U original (encrypt_text U original n)
  = Some (n mod 26).
Proof.
  intros HU Hex. unfold get_shift_between_texts.
  unfold encrypt_text at 2.
  apply (shift_scan_finds U HU original n original Hex).
Qed.

Lemma get_shift_between_texts_complete_witness :
  ascii_compatible latin1
  /\ existsb (isalpha latin1) (lit "12: Zebra") = true
  /\ get_shift_between_texts latin1 (lit "12: Zebra")
       (encrypt_text latin1 (lit "12: Zebra") (-29))
     = Some ((-29) mod 26).
Proof.
  split; [exact latin1_ascii_compatible|]. split; [reflexivity|].
  exact (get_shift_between_texts_complete latin1 (lit "12: Zebra") (-29)
           latin1_ascii_compatible eq_refl).
Defined.

(** X6: when one of the two texts has no alphabetic character, no shift is
    returned, also when the texts are equal. *)
Theorem get_shift_between_texts_no_letters
  (U : UnicodeData) (original encrypted : str) :
  existsb (isalpha U) original = false
  \/ existsb (isalpha U) encrypted = false ->
  get_shift_between_texts U original encrypted = None.
Proof.
  intros H. unfold get_shift_between_texts. apply shift_scan_no_letters.
  rewrite Forall_forall. intros [o e] Hin. simpl.
  pose proof (in_combine_l _ _ _ _ Hin) as Ho.
  pose proof (in_combine_r _ _ _ _ Hin) as He.
  destruct H as [H|H].
  - assert (isalpha U o = false) as ->; [|reflexivity].
    destruct (isalpha U o) eqn:E; [|reflexivity].
    rewrite <- H. symmetry. apply existsb_exists. exists o. split; assumption.
  - assert (isalpha U e = false) as ->; [|apply andb_false_r].
    destruct (isalpha U e) eqn:E; [|reflexivity].
    rewrite <- H. symmetry. apply existsb_exists. exists e. split; assumption.
Qed.

Lemma get_shift_between_texts_no_letters_witness :
  (existsb (isalpha latin1) (lit "2024-01-01") = false
   \/ existsb (isalpha latin1) (lit "2024-01-01") = false)
  /\ get_shift_between_texts latin1 (lit "2024-01-01") (lit "2024-01-01")
     = None.
Proof.
  split; [left; reflexivity|].
  apply (get_shift_between_texts_no_letters latin1). left. reflexivity.
Defined.

(** ** The scorer and the match counter *)

Lemma ratio_positive (k t : Z) :
  0 < t -> ((0 < inject_Z k / inject_Z t)%Q <-> 0 < k).
Proof.
  intros Ht. destruct t as [|p|p]; try lia.
  unfold Qlt, Qdiv, Qmult, Qinv, inject_Z. simpl. lia.
Qed.

Lemma ratio_one (k t : Z) :
  0 < t -> ((inject_Z k / inject_Z t == 1)%Q <-> k = t).
Proof.
  intros Ht. destruct t as [|p|p]; try lia.
  unfold Qeq, Qdiv, Qmult, Qinv, inject_Z. simpl. lia.
Qed.

(** X7: [check_english_words] and [calculate_word_score] count the same
    matches over the same cleaned words: the flag is true exactly when the
    count reaches the threshold, the count is at most the number of cleaned
    words, the score is positive exactly when there is a match, and it is
    1.0 exactly when every cleaned word matches and there is one. *)
Theorem score_agrees_with_match_count
  (U : UnicodeData) (text : str) (m : Z) :
  exists q, calculate_word_score U text = Ok q /\
    let total := len (clean_words (split (lower U text))) in
    let k := snd (check_english_words U text m) in
    (fst (check_english_words U text m) = true <-> m <= k)
    /\ 0 <= k <= total
    /\ ((0 < q)%Q <-> 1 <= k)
    /\ ((q == 1)%Q <-> k = total /\ 0 < total).
Proof.
  unfold calculate_word_score, check_english_words, clean_words.
  cbv zeta. cbn [fst snd]. rewrite !sum_ones.
  remember (split (lower U text)) as words eqn:Hw.
  remember (filter truthy (map (strip punctuation) words)) as cleaned
    eqn:Hc.
  set (k := len (filter (fun w => str_in w COMMON_ENGLISH_WORDS) cleaned)).
  assert (Hk : 0 <= k <= len cleaned).
  { subst k. split; [apply len_nonneg|].
    unfold len. apply inj_le, filter_length_le. }
  assert (Hzero : cleaned = [] ->
    exists q, Ok 0%Q = Ok q /\
      ((m <=? k) = true <-> m <= k) /\ 0 <= k <= len cleaned
      /\ ((0 < q)%Q <-> 1 <= k)
      /\ ((q == 1)%Q <-> k = len cleaned /\ 0 < len cleaned)).
  { intros E. exists 0%Q. split; [reflexivity|]. split; [apply Z.leb_le|].
    split; [exact Hk|]. subst k. rewrite E. simpl. unfold len. simpl.
    unfold Qlt, Qeq. simpl. lia. }
  destruct (truthy words) eqn:Tw; simpl negb; cbv iota.
  - destruct cleaned as [|c cs] eqn:Ec; [apply Hzero; reflexivity|].
    simpl negb. cbv iota.
    assert (Hpos : 0 < len (c :: cs)) by (unfold len; simpl; lia).
    rewrite truediv_ok by lia. unfold bind.
    eexists. split; [reflexivity|]. split; [apply Z.leb_le|].
    split; [exact Hk|]. rewrite Qred_correct. split.
    + rewrite (ratio_positive k _ Hpos). lia.
    + rewrite (ratio_one k _ Hpos).
      split; [intros H; split; [exact H | exact Hpos] | intros [H _]; exact H].
  - apply Hzero. destruct words; [subst cleaned; reflexivity | discriminate].
Qed.

(** ** The decoder: coverage and optimality *)

(** X8: the attempts returned by the decoder cover the 26 shifts exactly
    once, and each attempt holds the ciphertext decrypted with its shift and
    the score of that candidate. *)
Theorem attempts_cover_all_shifts (U : UnicodeData) (text : str) :
  exists bt bs atts,
    brute_force_decrypt U text = Ok (bt, bs, atts)
    /\ Permutation (map a_shift atts) (range 26)
    /\ Forall (fun a => a_text a = decrypt_text U text (a_shift a)
                        /\ calculate_word_score U (a_text a)
                           = Ok (a_score a)) atts.
Proof.
  destruct (brute_force_decrypt_run U text) as [st [Hrun _]].
  exists (best_text st), (best_shift st). eexists. split; [exact Hrun|].
  split.
  - rewrite (Permutation_map a_shift (sort_desc_perm a_score _)).
    rewrite map_map. rewrite map_id. reflexivity.
  - rewrite Forall_forall. intros a Ha.
    destruct (proj1 (in_attempts U text a) Ha) as [s [_ ->]].
    split; [reflexivity|]. apply calculate_word_score_eq.
Qed.

(** X9: the decoder reports no shift exactly when all 26 attempts score
    0.0. *)
Theorem not_found_iff_all_zero (U : UnicodeData) (text : str) :
  exists bt bs atts,
    brute_force_decrypt U text = Ok (bt, bs, atts)
    /\ (bs = None <-> Forall (fun a => a_score a = 0%Q) atts).
Proof.
  destruct (brute_force_decrypt_run U text) as [st [Hrun [_ Hbest]]].
  exists (best_text st), (best_shift st). eexists. split; [exact Hrun|].
  destruct (best_shift st) as [b|].
  - destruct Hbest as [_ [_ [Hpos [pre [post [Hsplit _]]]]]].
    split; [discriminate|]. intros Hall. exfalso.
    rewrite Forall_forall in Hall.
    assert (Hin : In b (range 26)).
    { rewrite Hsplit. apply in_or_app. right. left. reflexivity. }
    apply range_spec in Hin.
    assert (Hz : a_score (attempt_at U text b) = 0%Q).
    { apply Hall, (proj2 (in_attempts U text _)). exists b.
      split; [lia | reflexivity]. }
    change (shift_score U text b = 0%Q) in Hz. rewrite Hz in Hpos.
    revert Hpos. discriminate.
  - destruct Hbest as [_ [_ Hall]]. split; [intros _ | reflexivity].
    rewrite Forall_forall in Hall |- *. intros a Ha.
    destruct (proj1 (in_attempts U text a) Ha) as [s [Hs ->]].
    change (shift_score U text s = 0%Q). unfold shift_score.
    apply score_of_zero. apply Qle_not_lt.
    apply Hall, range_spec. lia.
Qed.

(** From the invariant over the 26 shifts: a best shift heads the ranked
    attempts, with a positive score that no attempt exceeds. *)
Lemma best_shift_heads_attempts
  (U : UnicodeData) (text : str) (st : bf_state) (s : Z) :
  bf_inv U text (range 26) st -> best_shift st = Some s ->
  exists rest,
    best_text st = Some (decrypt_text U text s)
    /\ sort_desc a_score (map (attempt_at U text) (range 26))
       = attempt_at U text s :: rest
    /\ (0 < shift_score U text s)%Q
    /\ Forall (fun a => (a_score a <= shift_score U text s)%Q)
              (sort_desc a_score (map (attempt_at U text) (range 26))).
Proof.
  intros [_ Hbest] Hs. rewrite Hs in Hbest.
  destruct Hbest as [Htx [_ [Hpos [pre [post [Hsplit [Hpre Hpost]]]]]]].
  assert (Hmax : forall z, 0 <= z <= 25 ->
            (shift_score U text z <= shift_score U text s)%Q).
  { intros z Hz.
    assert (Hin : In z (pre ++ s :: post)).
    { rewrite <- Hsplit. apply range_spec. lia. }
    rewrite Forall_forall in Hpre, Hpost.
    apply in_app_or in Hin. destruct Hin as [H|[<-|H]].
    - apply Qlt_le_weak, Hpre, H.
    - apply Qle_refl.
    - apply Hpost, H. }
  assert (Hb : 0 <= s <= 25).
  { assert (Hin : In s (range 26)).
    { rewrite Hsplit. apply in_or_app. right. left. reflexivity. }
    apply range_spec in Hin. lia. }
  assert (Hall : forall a,
            In a (sort_desc a_score (map (attempt_at U text) (range 26))) ->
            (a_score a <= shift_score U text s)%Q).
  { intros a Ha. destruct (proj1 (in_attempts U text a) Ha) as [z [Hz ->]].
    apply Hmax, Hz. }
  destruct (ranked_head a_score a_shift _ (attempt_at U text s)
              (attempts_ranked U text)) as [rest Hrest].
  - apply (proj2 (in_attempts U text _)). exists s.
    split; [exact Hb | reflexivity].
  - exact Hall.
  - intros a Ha Heq.
    destruct (proj1 (in_attempts U text a) Ha) as [z [Hz ->]].
    apply (first_best_is_least U text s pre post z Hsplit Hpre Hz).
    change (shift_score U text z == shift_score U text s)%Q in Heq.
    rewrite Heq. apply Qle_refl.
  - exists rest. split; [exact Htx|]. split; [exact Hrest|].
    split; [exact Hpos|]. rewrite Forall_forall. exact Hall.
Qed.

(** X10: a reported shift comes with its candidate as the first attempt; its
    score is positive and no attempt scores higher. *)
Theorem best_attempt_is_first_and_maximal (U : UnicodeData) (text : str) :
  exists bt bs atts,
    brute_force_decrypt U text = Ok (bt, bs, atts)
    /\ forall s, bs = Some s ->
         exists p q rest,
           bt = Some p /\ atts = (s, p, q) :: rest /\ (0 < q)%Q
           /\ Forall (fun a => (a_score a <= q)%Q) atts.
Proof.
  destruct (brute_force_decrypt_run U text) as [st [Hrun Hinv]].
  exists (best_text st), (best_shift st). eexists. split; [exact Hrun|].
  intros s Hs.
  destruct (best_shift_heads_attempts U text st s Hinv Hs)
    as [rest [Htx [Hhead [Hpos Hall]]]].
  exists (decrypt_text U text s), (shift_score U text s), rest.
  split; [exact Htx|]. split; [exact Hhead|]. split; assumption.
Qed.

(** X11: the plaintext is always among the candidates: for a plaintext whose
    letters are all in A-Z and a-z, encrypted with any shift [n], the
    attempt of shift [n mod 26] is the plaintext with its score; when that
    score is positive, a shift is reported. *)
Theorem plaintext_among_attempts (U : UnicodeData) (p : str) (n : Z) :
  ascii_compatible U ->
  Forall (fun c => isalpha U c = true ->
                   between 65 90 c || between 97 122 c = true) p ->
  exists bt bs atts q,
    brute_force_decrypt U (encrypt_text U p n) = Ok (bt, bs, atts)
    /\ calculate_word_score U p = Ok q
    /\ In (n mod 26, p, q) atts
    /\ ((0 < q)%Q -> bs <> None).
Proof.
  intros HU Hlatin.
  set (c := encrypt_text U p n).
  assert (Hdec : decrypt_text U c (n mod 26) = p).
  { unfold decrypt_text. subst c.
    rewrite (encrypt_text_mod U (encrypt_text U p n) (- (n mod 26))).
    replace ((- (n mod 26)) mod 26) with ((- n) mod 26)
      by (Z.div_mod_to_equations; lia).
    rewrite <- encrypt_text_mod.
    exact (round_trip_latin U p n HU Hlatin). }
  assert (Hrange : 0 <= n mod 26 <= 25).
  { pose proof (Z.mod_pos_bound n 26 ltac:(lia)). lia. }
  destruct (brute_force_decrypt_run U c) as [st [Hrun [_ Hbest]]].
  exists (best_text st), (best_shift st). eexists. exists (score_of U p).
  split; [exact Hrun|]. split; [apply calculate_word_score_eq|].
  split.
  - apply (proj2 (in_attempts U c _)). exists (n mod 26).
    split; [exact Hrange|]. unfold attempt_at, shift_score.
    rewrite Hdec. reflexivity.
  - intros Hpos Hnone. rewrite Hnone in Hbest.
    destruct Hbest as [_ [_ Hall]]. rewrite Forall_forall in Hall.
    assert (Hle : (shift_score U c (n mod 26) <= 0)%Q).
    { apply Hall, range_spec. lia. }
    unfold shift_score in Hle. rewrite Hdec in Hle.
    apply (Qlt_not_le _ _ Hpos), Hle.
Qed.

Lemma plaintext_among_attempts_witness :
  ascii_compatible latin1
  /\ Forall (fun c => isalpha latin1 c = true ->
                      between 65 90 c || between 97 122 c = true)
            (lit "Go to the dock")
  /\ exists bt bs atts q,
       brute_force_decrypt latin1 (encrypt_text latin1 (lit "Go to the dock") 40)
       = Ok (bt, bs, atts)
       /\ calculate_word_score latin1 (lit "Go to the dock") = Ok q
       /\ In (40 mod 26, lit "Go to the dock", q) atts
       /\ ((0 < q)%Q -> bs <> None).
Proof.
  assert (H : Forall (fun c => isalpha latin1 c = true ->
                      between 65 90 c || between 97 122 c = true)
                     (lit "Go to the dock")).
  { repeat constructor; vm_compute; intros; congruence. }
  split; [exact latin1_ascii_compatible|]. split; [exact H|].
  exact (plaintext_among_attempts latin1 (lit "Go to the dock") 40
           latin1_ascii_compatible H).
Defined.

(** X12: the method [CaesarCipher.brute_force_decrypt] always returns; what
    it returns and what the object then holds are the shift, the text and
    the attempts that the function [brute_force_decrypt] gives for this
    ciphertext, whatever the object held before; there are 26 stored
    attempts, each with the text [decrypt] gives for its shift and the score
    [calculate_score] gives for that text; and when a shift is returned, the
    first stored attempt carries that shift and the returned text. *)
Theorem cipher_object_keeps_last_attempts
  (U : UnicodeData) (self : CaesarCipher.t) (text : str) :
  exists shift decrypted self',
    CaesarCipher.brute_force_decrypt U self text
    = Ok ((shift, decrypted), self')
    /\ brute_force_decrypt U text
       = Ok (decrypted, shift, CaesarCipher.last_attempts self')
    /\ length (CaesarCipher.last_attempts self') = 26%nat
    /\ Forall (fun a =>
                 a_text a = CaesarCipher.decrypt U self' text (a_shift a)
                 /\ CaesarCipher.calculate_score U self' (a_text a)
                    = Ok (a_score a))
              (CaesarCipher.last_attempts self')
    /\ forall s, shift = Some s ->
         exists q rest,
           decrypted = Some (CaesarCipher.decrypt U self' text s)
           /\ CaesarCipher.last_attempts self'
              = (s, CaesarCipher.decrypt U self' text s, q) :: rest.
Proof.
  destruct (brute_force_decrypt_run U text) as [st [Hrun Hinv]].
  unfold CaesarCipher.brute_force_decrypt. rewrite Hrun. unfold bind.
  eexists. eexists. eexists. split; [reflexivity|].
  cbn [CaesarCipher.last_attempts]. split; [reflexivity|]. split; [|split].
  - rewrite sort_desc_length, length_map. reflexivity.
  - rewrite Forall_forall. intros a Ha.
    destruct (proj1 (in_attempts U text a) Ha) as [s [_ ->]].
    split; [reflexivity|]. apply calculate_word_score_eq.
  - intros s Hs.
    destruct (best_shift_heads_attempts U text st s Hinv Hs)
      as [rest [Htx [Hhead _]]].
    exists (shift_score U text s), rest.
    split; [exact Htx | exact Hhead].
Qed.

(** ** Words *)

Lemma split_from_words (cur s : str) :
  Forall (fun c => isspace c = false) cur ->
  Forall (fun w => w <> [] /\ Forall (fun c => isspace c = false) w)
         (split_from cur s)
  /\ concat (split_from cur s)
     = rev cur ++ filter (fun c => negb (isspace c)) s.
Proof.
  revert cur. induction s as [|c s IH]; intros cur Hcur; simpl.
  - destruct cur as [|d cur]; simpl.
    + split; [constructor | reflexivity].
    + split; [|rewrite !app_nil_r; reflexivity].
      constructor; [|constructor]. split.
      * intros H. apply (f_equal (@length _)) in H.
        rewrite length_app in H. simpl in H. lia.
      * apply (Forall_rev Hcur).
  - destruct (isspace c) eqn:E; simpl.
    + destruct cur as [|d cur].
      * apply (IH [] Hcur).
      * destruct (IH [] (Forall_nil _)) as [Hw Hc]. split.
        -- constructor; [|exact Hw]. split.
           ++ intros H. apply (f_equal (@length _)) in H.
              simpl in H. rewrite length_app in H. simpl in H. lia.
           ++ apply (Forall_rev Hcur).
        -- simpl concat. rewrite Hc. reflexivity.
    + destruct (IH (c :: cur)) as [Hw Hc]; [constructor; assumption|].
      split; [exact Hw|]. rewrite Hc. simpl. rewrite <- app_assoc.
      reflexivity.
Qed.

(** X13: [text.split()] as the analyzer uses it: no word is empty, no word
    contains whitespace, and the words put together are the text without
    its whitespace; so the word count is zero exactly when the text is all
    whitespace. *)
Theorem split_words_partition (text : str) :
  Forall (fun w => w <> [] /\ Forall (fun c => isspace c = false) w)
         (split text)
  /\ concat (split text) = filter (fun c => negb (isspace c)) text
  /\ (count_words text = 0 <-> forallb isspace text = true).
Proof.
  destruct (split_from_words [] text (Forall_nil _)) as [Hw Hc].
  fold (split text) in Hw, Hc. simpl in Hc.
  split; [exact Hw|]. split; [exact Hc|].
  unfold count_words. split.
  - intros H0. apply len_zero in H0. rewrite H0 in Hc. simpl in Hc.
    apply forallb_forall. intros c Hin.
    destruct (isspace c) eqn:E; [reflexivity|]. exfalso.
    assert (Hf : In c (filter (fun c => negb (isspace c)) text)).
    { apply filter_In. split; [exact Hin|]. rewrite E. reflexivity. }
    rewrite <- Hc in Hf. exact Hf.
  - intros Hall. rewrite forallb_forall in Hall.
    assert (Hnil : filter (fun c => negb (isspace c)) text = []).
    { destruct (filter (fun c => negb (isspace c)) text) as [|c l] eqn:E;
        [reflexivity|].
      assert (Hf : In c (c :: l)) by (left; reflexivity).
      rewrite <- E in Hf. apply filter_In in Hf. destruct Hf as [Hin Hn].
      rewrite (Hall c Hin) in Hn. discriminate. }
    rewrite Hnil in Hc.
    destruct (split text) as [|w ws]; [reflexivity|]. exfalso.
    inversion Hw as [|? ? [Hne _] _]; subst.
    simpl in Hc. apply app_eq_nil in Hc. destruct Hc as [Hc _].
    contradiction.
Qed.

(** ** Sorting by length *)

Section SortedByFacts.

Context {A : Type} (key : A -> Z).

Lemma insert_asc_perm (x : A) (l : list A) :
  Permutation (insert_asc key x l) (x :: l).
Proof.
  induction l as [|y l IH]; simpl; [reflexivity|].
  destruct (key y <? key x); [|reflexivity].
  rewrite IH. apply perm_swap.
Qed.

Lemma sorted_by_perm (l : list A) : Permutation (sorted_by key l) l.
Proof.
  induction l as [|x l IH]; simpl; [reflexivity|].
  rewrite insert_asc_perm, IH. reflexivity.
Qed.

Lemma insert_asc_sorted (x : A) (l : list A) :
  StronglySorted (fun a b => key a <= key b) l ->
  StronglySorted (fun a b => key a <= key b) (insert_asc key x l).
Proof.
  intros Hs. induction Hs as [|y l Hs IH Hy]; simpl.
  - constructor; constructor.
  - destruct (Z.ltb_spec (key y) (key x)) as [Hlt|Hge].
    + constructor; [exact IH|].
      apply (Permutation_Forall (Permutation_sym (insert_asc_perm x l))).
      constructor; [lia | exact Hy].
    + constructor; [constructor; assumption|].
      constructor; [exact Hge|].
      eapply Forall_impl; [|exact Hy]. simpl. intros z Hz. lia.
Qed.

Lemma sorted_by_sorted (l : list A) :
  StronglySorted (fun a b => key a <= key b) (sorted_by key l).
Proof.
  induction l as [|x l IH]; simpl; [constructor|].
  apply insert_asc_sorted, IH.
Qed.

(** Stability: the elements of one key keep their order. *)
Lemma insert_asc_same_key (k : Z) (x : A) (l : list A) :
  filter (fun a => key a =? k) (insert_asc key x l)
  = filter (fun a => key a =? k) (x :: l).
Proof.
  induction l as [|y l IH]; [reflexivity|]. simpl insert_asc.
  destruct (Z.ltb_spec (key y) (key x)) as [Hlt|Hge]; [|reflexivity].
  simpl filter in *. rewrite IH.
  destruct (Z.eqb_spec (key x) k) as [Hx|Hx];
    destruct (Z.eqb_spec (key y) k) as [Hy|Hy]; try reflexivity. lia.
Qed.

Lemma sorted_by_same_key (k : Z) (l : list A) :
  filter (fun a => key a =? k) (sorted_by key l)
  = filter (fun a => key a =? k) l.
Proof.
  induction l as [|x l IH]; [reflexivity|]. simpl sorted_by.
  rewrite insert_asc_same_key. simpl. rewrite IH. reflexivity.
Qed.

End SortedByFacts.

(** X14: [sort_words_by_length] rearranges the words in ascending length
    and keeps the words of equal length in their original order. *)
Theorem sort_words_by_length_stable (words : list str) :
  Permutation (sort_words_by_length words) words
  /\ StronglySorted (fun a b => len a <= len b)
       (sort_words_by_length words)
  /\ forall l, filter (fun w => len w =? l) (sort_words_by_length words)
               = filter (fun w => len w =? l) words.
Proof.
  unfold sort_words_by_length. split; [apply sorted_by_perm|].
  split; [apply sorted_by_sorted|]. intros l. apply sorted_by_same_key.
Qed.

(** ** Dictionaries that count *)

Section CountingFacts.

Context {K X : Type} (eqb : K -> K -> bool).
Hypothesis eqb_eq : forall a b, eqb a b = true <-> a = b.
Variable key : X -> K.

Let step (d : list (K * Z)) (x : X) : list (K * Z) :=
  dict_set eqb d (key x) (dict_get eqb d (key x) 0 + 1).

Lemma eqb_refl_true (a : K) : eqb a a = true.
Proof. apply eqb_eq. reflexivity. Qed.

Lemma dict_get_set (d : list (K * Z)) (k q : K) (v dflt : Z) :
  dict_get eqb (dict_set eqb d k v) q dflt
  = if eqb k q then v else dict_get eqb d q dflt.
Proof.
  induction d as [|[s v'] d IH]; simpl; [reflexivity|].
  destruct (eqb s k) eqn:Esk; simpl.
  - apply eqb_eq in Esk. rewrite Esk. destruct (eqb k q); reflexivity.
  - rewrite IH. destruct (eqb s q) eqn:Esq; [|reflexivity].
    destruct (eqb k q) eqn:Ekq; [|reflexivity].
    apply eqb_eq in Esq, Ekq. assert (Hsk : s = k) by congruence.
    rewrite Hsk, eqb_refl_true in Esk. discriminate.
Qed.

Lemma dict_set_keys (d : list (K * Z)) (k : K) (v : Z) :
  map fst (dict_set eqb d k v)
  = if existsb (fun s => eqb s k) (map fst d) then map fst d
    else map fst d ++ [k].
Proof.
  induction d as [|[s v'] d IH]; simpl; [reflexivity|].
  destruct (eqb s k); simpl; [reflexivity|].
  rewrite IH. destruct (existsb _ (map fst d)); reflexivity.
Qed.

Lemma dict_set_nodup (d : list (K * Z)) (k : K) (v : Z) :
  NoDup (map fst d) -> NoDup (map fst (dict_set eqb d k v)).
Proof.
  intros Hnd. rewrite dict_set_keys.
  destruct (existsb (fun s => eqb s k) (map fst d)) eqn:E; [exact Hnd|].
  apply NoDup_app; [exact Hnd | repeat constructor; intros [] | ].
  intros a Ha [Hk|[]]. subst a.
  assert (existsb (fun s => eqb s k) (map fst d) = true)
    by (apply existsb_exists; exists k; split;
        [exact Ha | apply eqb_refl_true]).
  congruence.
Qed.

(** The count of a key after the loop. *)
Lemma counting_get (xs : list X) (d : list (K * Z)) (q : K) :
  dict_get eqb (fold_left step xs d) q 0
  = dict_get eqb d q 0 + count_if (fun x => eqb (key x) q) xs.
Proof.
  revert d. induction xs as [|x xs IH]; intros d; simpl.
  - unfold count_if, sum. simpl. lia.
  - rewrite IH. unfold step at 1. rewrite dict_get_set.
    unfold count_if. simpl filter.
    destruct (eqb (key x) q) eqn:E; simpl map.
    + apply eqb_eq in E. subst q. rewrite sum_cons. lia.
    + reflexivity.
Qed.

Lemma counting_nodup (xs : list X) (d : list (K * Z)) :
  NoDup (map fst d) -> NoDup (map fst (fold_left step xs d)).
Proof.
  revert d. induction xs as [|x xs IH]; intros d Hnd; simpl; [exact Hnd|].
  apply IH, dict_set_nodup, Hnd.
Qed.

Lemma dict_set_positive (d : list (K * Z)) (k : K) (v : Z) :
  1 <= v -> Forall (fun kv => 1 <= snd kv) d ->
  Forall (fun kv => 1 <= snd kv) (dict_set eqb d k v).
Proof.
  intros Hv Hd. induction Hd as [|[s v'] d Hs Hd IH]; simpl.
  - constructor; [exact Hv | constructor].
  - destruct (eqb s k); constructor; assumption.
Qed.

Lemma dict_get_positive (d : list (K * Z)) (q : K) :
  Forall (fun kv => 1 <= snd kv) d -> 0 <= dict_get eqb d q 0.
Proof.
  induction 1 as [|[s v] d Hs Hd IH]; simpl; [lia|].
  destruct (eqb s q); simpl in *; lia.
Qed.

Lemma counting_positive (xs : list X) (d : list (K * Z)) :
  Forall (fun kv => 1 <= snd kv) d ->
  Forall (fun kv => 1 <= snd kv) (fold_left step xs d).
Proof.
  revert d. induction xs as [|x xs IH]; intros d Hd; simpl; [exact Hd|].
  apply IH. apply dict_set_positive; [|exact Hd].
  pose proof (dict_get_positive d (key x) Hd). lia.
Qed.

Lemma dict_set_sum (d : list (K * Z)) (k : K) :
  sum (map snd (dict_set eqb d k (dict_get eqb d k 0 + 1)))
  = sum (map snd d) + 1.
Proof.
  induction d as [|[s v] d IH]; simpl.
  - rewrite sum_cons. unfold sum. simpl. lia.
  - destruct (eqb s k); simpl; rewrite !sum_cons; [lia|].
    rewrite IH. lia.
Qed.

(** The counts add up to the number of elements counted. *)
Lemma counting_sum (xs : list X) (d : list (K * Z)) :
  sum (map snd (fold_left step xs d)) = sum (map snd d) + len xs.
Proof.
  revert d. induction xs as [|x xs IH]; intros d; simpl.
  - unfold len. simpl. lia.
  - rewrite IH. unfold step. rewrite dict_set_sum.
    unfold len. simpl length. lia.
Qed.

(** With distinct keys, an item of the dictionary is what a lookup
    returns, and the lookup does not depend on the order of the items. *)
Lemma dict_lookup_in (d : list (K * Z)) (k : K) (v : Z) :
  NoDup (map fst d) ->
  (In (k, v) d <-> dict_lookup eqb d k = Some v).
Proof.
  induction d as [|[s v'] d IH]; simpl; intros Hnd.
  - split; [contradiction | discriminate].
  - inversion Hnd as [|? ? Hnotin Hnd']; subst.
    destruct (eqb s k) eqn:E.
    + apply eqb_eq in E. subst s. split.
      * intros [[= ->]|Hin]; [reflexivity|].
        exfalso. apply Hnotin. apply (in_map fst) in Hin. exact Hin.
      * intros [= ->]. left. reflexivity.
    + rewrite <- (IH Hnd'). split.
      * intros [[= -> ->]|Hin]; [|exact Hin].
        rewrite eqb_refl_true in E. discriminate.
      * intros Hin. right. exact Hin.
Qed.

Lemma dict_lookup_perm (d d' : list (K * Z)) (k : K) :
  NoDup (map fst d) -> Permutation d d' ->
  dict_lookup eqb d' k = dict_lookup eqb d k.
Proof.
  intros Hnd Hp.
  assert (Hnd' : NoDup (map fst d')).
  { apply (Permutation_NoDup (Permutation_map fst Hp)), Hnd. }
  destruct (dict_lookup eqb d k) as [v|] eqn:E.
  - apply (dict_lookup_in d' k v Hnd').
    apply (Permutation_in _ Hp). apply (dict_lookup_in d k v Hnd), E.
  - destruct (dict_lookup eqb d' k) as [v|] eqn:E'; [|reflexivity].
    apply (dict_lookup_in d' k v Hnd') in E'.
    apply (Permutation_in _ (Permutation_sym Hp)) in E'.
    apply (dict_lookup_in d k v Hnd) in E'. congruence.
Qed.

Lemma dict_lookup_get (d : list (K * Z)) (q : K) :
  Forall (fun kv => 1 <= snd kv) d ->
  dict_lookup eqb d q
  = if dict_get eqb d q 0 =? 0 then None else Some (dict_get eqb d q 0).
Proof.
  induction 1 as [|[s v] d Hs Hd IH]; simpl; [reflexivity|].
  destruct (eqb s q); [|exact IH]. simpl in Hs.
  destruct (Z.eqb_spec v 0); [lia | reflexivity].
Qed.

End CountingFacts.

Lemma sum_perm (l l' : list Z) : Permutation l l' -> sum l = sum l'.
Proof.
  induction 1 as [|x l l' _ IH|x y l|l l' l'' _ IH1 _ IH2].
  - reflexivity.
  - rewrite !sum_cons, IH. reflexivity.
  - rewrite !sum_cons. lia.
  - congruence.
Qed.

Lemma sorted_distinct_keys (d : list (Z * Z)) :
  StronglySorted (fun a b => fst a <= fst b) d -> NoDup (map fst d) ->
  StronglySorted (fun a b => fst a < fst b) d.
Proof.
  induction 1 as [|a d Hs IH Ha]; intros Hnd; simpl in *; constructor.
  - inversion Hnd; subst. apply IH. assumption.
  - inversion Hnd as [|? ? Hnotin _]; subst.
    rewrite Forall_forall in Ha |- *. intros b Hb.
    specialize (Ha b Hb).
    assert (fst a <> fst b).
    { intros E. apply Hnotin. rewrite E. apply in_map, Hb. }
    lia.
Qed.

(** X15: the word-length distribution lists the lengths that occur in
    strictly ascending order, gives for each length the number of words of
    that length (and has no entry for a length that does not occur), and
    its counts add up to the number of words. *)
Theorem word_length_distribution_counts (words : list str) :
  let d := get_word_length_distribution words in
  StronglySorted (fun a b => fst a < fst b) d
  /\ (forall l,
        dict_lookup Z.eqb d l
        = let n := count_if (fun w => len w =? l) words in
          if n =? 0 then None else Some n)
  /\ sum (map snd d) = len words.
Proof.
  assert (Hd : get_word_length_distribution words
               = sorted_by fst (length_distribution words)).
  { destruct words; reflexivity. }
  cbv zeta. rewrite Hd. clear Hd.
  set (ld := length_distribution words).
  assert (Hnd : NoDup (map fst ld)).
  { apply (counting_nodup Z.eqb Z.eqb_eq len words []). constructor. }
  assert (Hpos : Forall (fun kv => 1 <= snd kv) ld).
  { apply (counting_positive Z.eqb len words []). constructor. }
  assert (Hperm : Permutation (sorted_by fst ld) ld)
    by apply sorted_by_perm.
  split; [|split].
  - apply sorted_distinct_keys; [apply sorted_by_sorted|].
    apply (Permutation_NoDup
             (Permutation_map fst (Permutation_sym Hperm))), Hnd.
  - intros l.
    rewrite (dict_lookup_perm Z.eqb Z.eqb_eq ld _ l Hnd
               (Permutation_sym Hperm)).
    rewrite (dict_lookup_get Z.eqb ld l Hpos).
    unfold ld, length_distribution.
    rewrite (counting_get Z.eqb Z.eqb_eq len words [] l). reflexivity.
  - rewrite (sum_perm _ _ (Permutation_map snd Hperm)).
    unfold ld, length_distribution.
    rewrite (counting_sum Z.eqb len words []).
    change (sum (map snd (@nil (Z * Z)))) with 0. apply Z.add_0_l.
Qed.

(** ** The first element of greatest or least key *)

Section FirstBest.

Context {A : Type} (key : A -> Z).

Lemma fold_max_first (l : list A) (x : A) :
  let m := fold_left (fun best y => if key y >? key best then y else best)
                     l x in
  exists pre post,
    x :: l = pre ++ m :: post
    /\ Forall (fun y => key y < key m) pre
    /\ Forall (fun y => key y <= key m) post.
Proof.
  induction l as [|y l IH] using rev_ind; cbv zeta.
  - exists [], []. repeat split; constructor.
  - rewrite fold_left_app. simpl.
    destruct IH as [pre [post [Hsplit [Hpre Hpost]]]].
    set (m := fold_left (fun best y => if key y >? key best then y else best)
                        l x) in *.
    destruct (Z.gtb_spec (key y) (key m)) as [Hgt|Hle].
    + exists (x :: l), []. split; [reflexivity|]. split; [|constructor].
      change (x :: l) with ([x] ++ l). rewrite <- app_comm_cons. simpl.
      rewrite Hsplit. apply Forall_app. split.
      * eapply Forall_impl; [|exact Hpre]. simpl. intros z Hz. lia.
      * constructor; [lia|].
        eapply Forall_impl; [|exact Hpost]. simpl. intros z Hz. lia.
    + exists pre, (post ++ [y]). split.
      * change (x :: l ++ [y]) with ((x :: l) ++ [y]). rewrite Hsplit.
        rewrite <- app_assoc. reflexivity.
      * split; [exact Hpre|]. apply Forall_app. split; [exact Hpost|].
        constructor; [exact Hle | constructor].
Qed.

Lemma max_by_first (l : list A) :
  l <> [] ->
  exists m pre post,
    max_by key l = Ok m /\ l = pre ++ m :: post
    /\ Forall (fun y => key y < key m) pre
    /\ Forall (fun y => key y <= key m) post.
Proof.
  destruct l as [|x l]; [congruence|]. intros _.
  destruct (fold_max_first l x) as [pre [post H]].
  eexists. exists pre, post. split; [reflexivity | exact H].
Qed.

End FirstBest.

Lemma fold_left_pointwise {A B} (f g : A -> B -> A) (l : list B) (x : A) :
  (forall a b, f a b = g a b) -> fold_left f l x = fold_left g l x.
Proof.
  intros H. revert x. induction l as [|y l IH]; intros x; simpl;
    [reflexivity|].
  rewrite H. apply IH.
Qed.

Lemma min_by_first {A} (key : A -> Z) (l : list A) :
  l <> [] ->
  exists m pre post,
    min_by key l = Ok m /\ l = pre ++ m :: post
    /\ Forall (fun y => key m < key y) pre
    /\ Forall (fun y => key m <= key y) post.
Proof.
  intros Hne.
  assert (Hmin : min_by key l = max_by (fun a => - key a) l).
  { destruct l as [|x l]; [reflexivity|]. simpl. f_equal.
    apply fold_left_pointwise. intros best y.
    destruct (Z.ltb_spec (key y) (key best));
      destruct (Z.gtb_spec (- key y) (- key best)); try reflexivity; lia. }
  destruct (max_by_first (fun a => - key a) l Hne)
    as [m [pre [post [Hm [Hsplit [Hpre Hpost]]]]]].
  exists m, pre, post. rewrite Hmin. split; [exact Hm|].
  split; [exact Hsplit|]. split.
  - eapply Forall_impl; [|exact Hpre]. simpl. intros z Hz. lia.
  - eapply Forall_impl; [|exact Hpost]. simpl. intros z Hz. lia.
Qed.

(** X16: [find_longest_word] returns the empty string for no words and
    otherwise the first word of greatest length. *)
Theorem find_longest_word_first_longest (words : list str) :
  exists w, find_longest_word words = Ok w
    /\ (words = [] -> w = [])
    /\ (words <> [] ->
        exists pre post, words = pre ++ w :: post
          /\ Forall (fun v => len v < len w) pre
          /\ Forall (fun v => len v <= len w) post).
Proof.
  unfold find_longest_word. destruct words as [|x l].
  - exists []. split; [reflexivity|]. split; [reflexivity | congruence].
  - destruct (max_by_first len (x :: l)) as [m [pre [post [Hm H]]]];
      [discriminate|].
    exists m. split; [exact Hm|]. split; [discriminate|].
    intros _. exists pre, post. exact H.
Qed.

(** X17: [find_shortest_word] ignores empty strings: it returns the empty
    string when no word is non-empty, and otherwise the first of the
    shortest non-empty words. *)
Theorem find_shortest_word_first_shortest (words : list str) :
  exists w, find_shortest_word words = Ok w
    /\ (filter truthy words = [] -> w = [])
    /\ (filter truthy words <> [] ->
        w <> [] /\ In w words
        /\ exists pre post, filter truthy words = pre ++ w :: post
             /\ Forall (fun v => len w < len v) pre
             /\ Forall (fun v => len w <= len v) post).
Proof.
  unfold find_shortest_word. cbv zeta.
  destruct (filter truthy words) as [|x l] eqn:E.
  - exists []. split; [|split; [reflexivity | congruence]].
    destruct (truthy words); reflexivity.
  - assert (Tw : truthy words = true)
      by (destruct words; [discriminate | reflexivity]).
    rewrite Tw. simpl negb. cbv iota.
    destruct (min_by_first len (x :: l)) as [m [pre [post [Hm H]]]];
      [discriminate|].
    exists m. split; [exact Hm|]. split; [discriminate|]. intros _.
    assert (Hin : In m (filter truthy words)).
    { rewrite E. destruct H as [-> _]. apply in_or_app. right. left.
      reflexivity. }
    apply filter_In in Hin. destruct Hin as [Hin Hne].
    split; [apply truthy_true, Hne|]. split; [exact Hin|].
    exists pre, post. exact H.
Qed.

(** X18: [find_most_common_word] returns [("", 0)] for no words and
    otherwise a lower-cased word with the number of times it occurs among
    the lower-cased words, which is at least 1 and at least the number of
    occurrences of any other word. *)
Theorem find_most_common_word_counts (U : UnicodeData) (words : list str) :
  exists w c, find_most_common_word U words = Ok (w, c)
    /\ (words = [] -> w = [] /\ c = 0)
    /\ (words <> [] ->
        c = count_if (fun x => str_eqb x w) (map (lower U) words)
        /\ 1 <= c
        /\ forall v,
             count_if (fun x => str_eqb x v) (map (lower U) words) <= c).
Proof.
  unfold find_most_common_word. cbv zeta.
  destruct words as [|x l].
  { exists [], 0. split; [reflexivity|].
    split; [intros _; split; reflexivity | congruence]. }
  set (lw := map (lower U) (x :: l)).
  set (C := Counter lw).
  assert (Hnd : NoDup (map fst C)).
  { apply (counting_nodup str_eqb str_eqb_eq (fun w => w) lw []).
    constructor. }
  assert (Hpos : Forall (fun kv => 1 <= snd kv) C).
  { apply (counting_positive str_eqb (fun w => w) lw []). constructor. }
  assert (Hget : forall v,
            dict_get str_eqb C v 0 = count_if (fun x => str_eqb x v) lw).
  { intros v. unfold C, Counter.
    rewrite (counting_get str_eqb str_eqb_eq (fun w => w) lw [] v).
    reflexivity. }
  assert (Hne : C <> []).
  { intros E.
    assert (Hsum : sum (map snd C) = 0 + len lw)
      by apply (counting_sum str_eqb (fun w => w) lw []).
    rewrite E in Hsum. unfold lw, len in Hsum. simpl in Hsum.
    unfold sum in Hsum. simpl in Hsum. lia. }
  simpl negb. cbv iota.
  destruct (max_by_first snd C Hne) as [[w c] [pre [post [Hm [Hsplit H]]]]].
  assert (Tc : truthy C = true) by (apply truthy_true, Hne).
  rewrite Tc. unfold most_common_1. rewrite Hm. simpl index0.
  exists w, c. split; [reflexivity|]. split; [discriminate|]. intros _.
  assert (Hin : In (w, c) C).
  { rewrite Hsplit. apply in_or_app. right. left. reflexivity. }
  assert (Hc1 : 1 <= c).
  { rewrite Forall_forall in Hpos. apply (Hpos (w, c) Hin). }
  assert (Hmax : forall kv, In kv C -> snd kv <= c).
  { intros kv Hkv. rewrite Hsplit in Hkv.
    destruct H as [Hpre Hpost]. rewrite Forall_forall in Hpre, Hpost.
    apply in_app_or in Hkv. destruct Hkv as [Hk|[<-|Hk]].
    - specialize (Hpre kv Hk). simpl in Hpre. lia.
    - simpl. lia.
    - apply (Hpost kv Hk). }
  assert (Hlook : forall v n, dict_lookup str_eqb C v = Some n ->
                              n = dict_get str_eqb C v 0).
  { intros v n Hv. rewrite (dict_lookup_get str_eqb C v Hpos) in Hv.
    destruct (dict_get str_eqb C v 0 =? 0); congruence. }
  split; [|split; [exact Hc1|]].
  - rewrite <- Hget. apply Hlook.
    apply (dict_lookup_in str_eqb str_eqb_eq C w c Hnd), Hin.
  - intros v. rewrite <- Hget.
    pose proof (dict_lookup_get str_eqb C v Hpos) as Hv.
    destruct (Z.eqb_spec (dict_get str_eqb C v 0) 0) as [E0|E0]; [lia|].
    apply (dict_lookup_in str_eqb str_eqb_eq C v _ Hnd) in Hv.
    apply (Hmax _ Hv).
Qed.

(** ** The dictionary of [analyze_text] and the stand-alone helpers *)

Lemma filter_all {A} (p : A -> bool) (l : list A) :
  Forall (fun x => p x = true) l -> filter p l = l.
Proof.
  induction 1 as [|x l Hx _ IH]; simpl; [reflexivity|].
  rewrite Hx, IH. reflexivity.
Qed.

Lemma count_if_bounds {A} (p : A -> bool) (l : list A) :
  0 <= count_if p l <= len l.
Proof.
  unfold count_if. rewrite sum_ones. split; [apply len_nonneg|].
  unfold len. apply inj_le, filter_length_le.
Qed.

(** X19: the two code paths agree: each of the nineteen keys of the
    dictionary of [analyze_text] that has a stand-alone helper in the module
    (all but ['original_text'] and ['character_count']) holds what that
    helper returns on the same text, or on its words, although the helpers
    guard their edge cases differently.  The key ['all_lowercase'] is
    [all_lower]. *)
Theorem analyze_text_agrees_with_helpers
  (U : UnicodeData) (islower : str -> bool) (text : str) :
  exists r, analyze_text U text = Ok r
    /\ word_count r = count_words text
    /\ unique_characters r = count_unique_characters text
    /\ find_longest_word (split text) = Ok (longest_word r)
    /\ find_shortest_word (split text) = Ok (shortest_word r)
    /\ calculate_average_word_length (split text)
       = Ok (average_word_length r)
    /\ calculate_vowel_percentage U text = Ok (vowel_percentage r)
    /\ words_sorted_by_length r = sort_words_by_length (split text)
    /\ all_lower U islower text
       = check_all_lowercase U islower (split text)
    /\ any_word_longer_than_7 r
       = check_any_word_longer_than (split text) 7
    /\ indexed_words r = get_indexed_words (split text)
    /\ word_length_pairs r = create_word_length_pairs (split text)
    /\ word_length_distribution r
       = get_word_length_distribution (split text)
    /\ unique_words_count r = count_unique_words U (split text)
    /\ find_most_common_word U (split text) = Ok (most_common_word r)
    /\ alphabetic_character_count r = count_alphabetic_characters U text
    /\ digit_count r = count_digits U text
    /\ punctuation_count r = count_punctuation text
    /\ words_starting_with_vowel r
       = count_words_starting_with_vowel (split text)
    /\ palindrome_words r = find_palindrome_words U (split text).
Proof.
  unfold analyze_text. cbv zeta.
  destruct (guarded_max_ok len [] (split text)) as [lg Hlg].
  destruct (guarded_min_ok (split text) (split_truthy text)) as [sh Hsh].
  destruct (guarded_average_ok (split text) (sum (map len (split text))))
    as [avg [Havg _]].
  destruct (guarded_percent_ok
              (count_if (fun ch => char_in ch vowels) text)
              (count_if (isalpha U) text)) as [vp [Hvp Hvp0]].
  destruct (guarded_most_common_ok (split text)
              (Counter (map (lower U) (split text)))) as [mc Hmc].
  bind_ok Hlg. bind_ok Hsh. bind_ok Havg. bind_ok Hvp. bind_ok Hmc.
  eexists. split; [reflexivity|].
  cbn [word_count unique_characters longest_word shortest_word
       average_word_length vowel_percentage words_sorted_by_length
       any_word_longer_than_7 indexed_words word_length_pairs
       word_length_distribution unique_words_count most_common_word
       alphabetic_character_count digit_count punctuation_count
       words_starting_with_vowel palindrome_words].
  split; [reflexivity|]. split; [reflexivity|].
  split.
  { etransitivity; [|exact Hlg]. unfold find_longest_word.
    destruct (split text); reflexivity. }
  split.
  { pose proof (split_truthy text) as Ht.
    etransitivity; [|exact Hsh]. unfold find_shortest_word. cbv zeta.
    destruct (split text) as [|w ws]; [reflexivity|].
    inversion Ht as [|? ? Hw _]; subst.
    destruct w; [discriminate | reflexivity]. }
  split.
  { etransitivity; [|exact Havg].
    unfold calculate_average_word_length. cbv zeta.
    destruct (split text); reflexivity. }
  split.
  { pose proof (count_if_bounds (isalpha U) text) as Hb.
    etransitivity; [|exact Hvp].
    unfold calculate_vowel_percentage. cbv zeta.
    destruct text as [|c text]; [reflexivity|].
    simpl negb. cbv iota.
    destruct (Z.eqb_spec (count_if (isalpha U) (c :: text)) 0) as [E|E];
      destruct (Z.gtb_spec (count_if (isalpha U) (c :: text)) 0);
      try reflexivity; lia. }
  split; [reflexivity|].
  split.
  { unfold all_lower, check_all_lowercase. cbv zeta.
    destruct (split text); reflexivity. }
  split; [reflexivity|]. split; [reflexivity|].
  split; [reflexivity|].
  split.
  { unfold get_word_length_distribution.
    destruct (split text); reflexivity. }
  split; [reflexivity|].
  split.
  { etransitivity; [|exact Hmc]. unfold find_most_common_word. cbv zeta.
    destruct (split text); reflexivity. }
  repeat split; reflexivity.
Qed.

(** The key ['all_lowercase'] on two texts: a capitalised word makes it
    false, a number does not. *)
Example all_lower_runs :
  all_lower latin1 l1_islower (lit "the Cat 42") = false
  /\ all_lower latin1 l1_islower (lit "the cat 42") = true
  /\ check_all_lowercase latin1 l1_islower [] = true.
Proof. repeat split; reflexivity. Qed.

(** ** Ranges of the statistics *)

Lemma percent_bounds (part whole : Z) :
  0 <= part <= whole -> 0 < whole ->
  (0 <= fmul (Qred (inject_Z part / inject_Z whole)) 100 <= 100)%Q.
Proof.
  intros Hp Hw. unfold fmul. rewrite Qred_correct.
  destruct (ratio_bounds part whole Hp Hw) as [H0 H1].
  split.
  - apply Qmult_le_0_compat; [exact H0 | discriminate].
  - setoid_replace (100 : Q)%Q with (1 * inject_Z 100)%Q at 2
      by reflexivity.
    apply Qmult_le_compat_r; [exact H1 | discriminate].
Qed.

Lemma ratio_ge_one (n s : Z) :
  0 < n -> n <= s -> (1 <= Qred (inject_Z s / inject_Z n))%Q.
Proof.
  intros Hn Hs. rewrite Qred_correct. apply Qle_shift_div_l.
  - unfold Qlt, inject_Z. simpl. lia.
  - rewrite Qmult_1_l. unfold Qle, inject_Z. simpl. lia.
Qed.

Lemma guarded_average_ge_one {A} (l : list A) (total : Z) (q : Q) :
  (if truthy l then truediv total (len l) else Ok 0%Q) = Ok q ->
  l <> [] -> len l <= total -> (1 <= q)%Q.
Proof.
  destruct l as [|x l]; [congruence|]. simpl truthy. cbv iota.
  assert (Hpos : 0 < len (x :: l)) by (unfold len; simpl; lia).
  generalize dependent (len (x :: l)). intros n Hpos.
  rewrite truediv_ok by lia. intros [= <-] _ Hs.
  apply ratio_ge_one; [exact Hpos | exact Hs].
Qed.

Lemma guarded_percent_bounds (part whole : Z) (q : Q) :
  0 <= part <= whole ->
  (if whole >? 0
   then q <- truediv part whole ;; Ok (fmul q 100)
   else Ok 0%Q) = Ok q ->
  (0 <= q <= 100)%Q.
Proof.
  intros Hp. destruct (Z.gtb_spec whole 0) as [Hpos|Hle].
  - rewrite truediv_ok by lia. unfold bind. intros [= <-].
    apply percent_bounds; [exact Hp | lia].
  - intros [= <-]. split; discriminate.
Qed.

Lemma count_if_le {A} (p q : A -> bool) (l : list A) :
  (forall x, p x = true -> q x = true) -> count_if p l <= count_if q l.
Proof.
  intros H. unfold count_if. rewrite !sum_ones. unfold len.
  apply inj_le. induction l as [|x l IH]; simpl; [lia|].
  destruct (p x) eqn:E; [rewrite (H x E); simpl; lia|].
  destruct (q x); simpl; lia.
Qed.

Lemma vowels_are_letters (U : UnicodeData) (c : codepoint) :
  ascii_compatible U -> char_in c vowels = true -> isalpha U c = true.
Proof.
  intros HU Hc. unfold char_in in Hc. apply existsb_exists in Hc.
  destruct Hc as [v [Hin Hv]]. apply Z.eqb_eq in Hv. subst v.
  assert (Hascii : ascii c).
  { unfold ascii. simpl in Hin.
    repeat (destruct Hin as [<-|Hin]; [lia|]). contradiction. }
  rewrite (ac_isalpha U HU c Hascii). simpl in Hin.
  repeat (destruct Hin as [<-|Hin]; [reflexivity|]). contradiction.
Qed.

Lemma count_distinct_le {A} (dec : forall x y : A, {x = y} + {x <> y})
  (l : list A) : 0 <= count_distinct dec l <= len l.
Proof.
  unfold count_distinct, len. split; [lia|]. apply inj_le.
  induction l as [|x l IH]; simpl; [lia|].
  destruct (in_dec dec x l); simpl; lia.
Qed.

Lemma sum_lengths_ge (words : list str) :
  Forall (fun w => truthy w = true) words ->
  len words <= sum (map len words).
Proof.
  induction 1 as [|w l Hw _ IH]; [unfold sum, len; simpl; lia|].
  simpl map. rewrite sum_cons.
  assert (1 <= len w) by (destruct w; [discriminate|]; unfold len; simpl; lia).
  unfold len in *. simpl length. lia.
Qed.

(** X20: the ranges of the statistics: the vowel percentage and the letter,
    digit and space percentages lie in [0, 100]; with at least one word
    the average word length is at least 1; the numbers of distinct words,
    distinct characters, words starting with a vowel and palindrome words
    are at most the number of words, respectively characters. *)
Theorem statistics_ranges (U : UnicodeData) (text : str) :
  ascii_compatible U ->
  exists r g,
    analyze_text U text = Ok r /\ full_analysis U text = Ok g
    /\ (0 <= vowel_percentage r <= 100)%Q
    /\ (0 <= letter_percentage g <= 100)%Q
    /\ (0 <= digit_percentage g <= 100)%Q
    /\ (0 <= space_percentage g <= 100)%Q
    /\ (word_count r <> 0 -> (1 <= average_word_length r)%Q)
    /\ 0 <= unique_words_count r <= word_count r
    /\ 0 <= unique_characters r <= character_count r
    /\ 0 <= words_starting_with_vowel r <= word_count r
    /\ len (palindrome_words r) <= word_count r.
Proof.
  intros HU.
  assert (Hr : exists r, analyze_text U text = Ok r
    /\ (0 <= vowel_percentage r <= 100)%Q
    /\ (word_count r <> 0 -> (1 <= average_word_length r)%Q)
    /\ 0 <= unique_words_count r <= word_count r
    /\ 0 <= unique_characters r <= character_count r
    /\ 0 <= words_starting_with_vowel r <= word_count r
    /\ len (palindrome_words r) <= word_count r
    /\ alphabetic_character_count r = count_if (isalpha U) text
    /\ digit_count r = count_if (isdigit U) text).
  { unfold analyze_text. cbv zeta.
    destruct (guarded_max_ok len [] (split text)) as [lg Hlg].
    destruct (guarded_min_ok (split text) (split_truthy text)) as [sh Hsh].
    destruct (guarded_average_ok (split text) (sum (map len (split text))))
      as [avg [Havg _]].
    destruct (guarded_percent_ok
                (count_if (fun ch => char_in ch vowels) text)
                (count_if (isalpha U) text)) as [vp [Hvp _]].
    destruct (guarded_most_common_ok (split text)
                (Counter (map (lower U) (split text)))) as [mc Hmc].
    bind_ok Hlg. bind_ok Hsh. bind_ok Havg. bind_ok Hvp. bind_ok Hmc.
    eexists. split; [reflexivity|].
    cbn [word_count unique_characters character_count average_word_length
         vowel_percentage unique_words_count alphabetic_character_count
         digit_count words_starting_with_vowel palindrome_words].
    split.
    { apply (guarded_percent_bounds _ _ vp) in Hvp; [exact Hvp|].
      split; [apply count_if_bounds|].
      apply count_if_le. intros c. apply vowels_are_letters, HU. }
    split.
    { intros Hne.
      apply (guarded_average_ge_one (split text) _ avg Havg);
        [intros E; apply Hne; rewrite E; reflexivity|].
      apply sum_lengths_ge, split_truthy. }
    split.
    { pose proof (count_distinct_le (list_eq_dec Z.eq_dec)
                    (map (lower U) (split text))) as H.
      unfold len in H. rewrite length_map in H. exact H. }
    split; [apply count_distinct_le|].
    split; [apply count_if_bounds|].
    split; [unfold len; apply inj_le, filter_length_le|].
    split; reflexivity. }
  destruct Hr as [r [Hr [Hvp [Havg [Huw [Huc [Hsv [Hpal [Hac Hdc]]]]]]]]].
  exists r. unfold full_analysis. rewrite Hr. unfold bind. cbv zeta.
  rewrite Hac, Hdc.
  pose proof (count_if_bounds (isalpha U) text) as Ha.
  pose proof (count_if_bounds (isdigit U) text) as Hd.
  pose proof (count_if_bounds (Z.eqb 32) text) as Hsp.
  destruct (Z.gtb_spec (len text) 0) as [Hpos|Hle].
  - rewrite !truediv_ok by lia.
    eexists. split; [reflexivity|]. split; [reflexivity|].
    cbn [letter_percentage digit_percentage space_percentage].
    split; [exact Hvp|].
    split; [apply percent_bounds; [exact Ha | exact Hpos]|].
    split; [apply percent_bounds; [exact Hd | exact Hpos]|].
    split; [apply percent_bounds; [exact Hsp | exact Hpos]|].
    repeat split; assumption || apply Huw || apply Huc || apply Hsv.
  - eexists. split; [reflexivity|]. split; [reflexivity|].
    cbn [letter_percentage digit_percentage space_percentage].
    split; [exact Hvp|].
    split; [split; discriminate|]. split; [split; discriminate|].
    split; [split; discriminate|].
    repeat split; assumption || apply Huw || apply Huc || apply Hsv.
Qed.

Lemma statistics_ranges_witness :
  ascii_compatible latin1
  /\ exists r g,
       analyze_text latin1 (lit "An owl, a cat and I.") = Ok r
       /\ full_analysis latin1 (lit "An owl, a cat and I.") = Ok g
       /\ (0 <= vowel_percentage r <= 100)%Q
       /\ (0 <= letter_percentage g <= 100)%Q
       /\ (0 <= digit_percentage g <= 100)%Q
       /\ (0 <= space_percentage g <= 100)%Q
       /\ (word_count r <> 0 -> (1 <= average_word_length r)%Q)
       /\ 0 <= unique_words_count r <= word_count r
       /\ 0 <= unique_characters r <= character_count r
       /\ 0 <= words_starting_with_vowel r <= word_count r
       /\ len (palindrome_words r) <= word_count r.
Proof.
  split; [exact latin1_ascii_compatible|].
  exact (statistics_ranges latin1 (lit "An owl, a cat and I.")
           latin1_ascii_compatible).
Defined.

(** ** File names *)

Section StripFacts.

Variable chars : str.

Lemma lstrip_forall (P : codepoint -> Prop) (s : str) :
  Forall P s -> Forall P (lstrip chars s).
Proof.
  induction 1 as [|c s Hc Hs IH]; simpl; [constructor|].
  destruct (char_in c chars); [exact IH | constructor; assumption].
Qed.

Lemma strip_forall (P : codepoint -> Prop) (s : str) :
  Forall P s -> Forall P (strip chars s).
Proof.
  intros H. unfold strip, rstrip.
  apply Forall_rev, lstrip_forall, Forall_rev, lstrip_forall, H.
Qed.

Lemma lstrip_head (s : str) (c : codepoint) :
  hd_error (lstrip chars s) = Some c -> char_in c chars = false.
Proof.
  induction s as [|d s IH]; simpl; [discriminate|].
  destruct (char_in d chars) eqn:E; [exact IH|].
  simpl. intros [= <-]. exact E.
Qed.

(** A string that does not start with one of [chars] is left alone. *)
Lemma lstrip_fixed (s : str) :
  (forall c, hd_error s = Some c -> char_in c chars = false) ->
  lstrip chars s = s.
Proof.
  destruct s as [|c s]; simpl; [reflexivity|].
  intros H. rewrite (H c eq_refl). reflexivity.
Qed.

(** [lstrip] removes a prefix. *)
Lemma lstrip_suffix (s : str) : exists pre, s = pre ++ lstrip chars s.
Proof.
  induction s as [|c s [pre IH]]; simpl; [exists []; reflexivity|].
  destruct (char_in c chars).
  - exists (c :: pre). simpl. f_equal. exact IH.
  - exists []. reflexivity.
Qed.

Lemma hd_error_app_last (pre s : str) (c : codepoint) :
  s <> [] -> hd_error (rev (pre ++ s)) = Some c -> hd_error (rev s) = Some c.
Proof.
  intros Hne. rewrite rev_app_distr.
  destruct (rev s) as [|d r] eqn:E; [|simpl; trivial].
  apply (f_equal (@rev _)) in E. rewrite rev_involutive in E. contradiction.
Qed.

(** The result of [strip] neither starts nor ends with one of [chars]. *)
Lemma strip_ends (s : str) (c : codepoint) :
  hd_error (strip chars s) = Some c \/ hd_error (rev (strip chars s)) = Some c ->
  char_in c chars = false.
Proof.
  unfold strip, rstrip. rewrite rev_involutive. intros [H|H].
  - set (t := lstrip chars s) in *.
    destruct (lstrip_suffix (rev t)) as [pre Hpre].
    assert (Ht : t = rev (lstrip chars (rev t)) ++ rev pre).
    { rewrite <- rev_app_distr, <- Hpre, rev_involutive. reflexivity. }
    destruct (rev (lstrip chars (rev t))) as [|d r] eqn:E;
      [discriminate|].
    simpl in H. injection H as ->.
    apply (lstrip_head s). fold t. rewrite Ht. reflexivity.
  - apply (lstrip_head _ _ H).
Qed.

Lemma strip_fixed (s : str) :
  (forall c, hd_error s = Some c \/ hd_error (rev s) = Some c ->
             char_in c chars = false) ->
  strip chars s = s.
Proof.
  intros H. unfold strip, rstrip.
  rewrite (lstrip_fixed s) by (intros c Hc; apply H; left; exact Hc).
  rewrite (lstrip_fixed (rev s)) by (intros c Hc; apply H; right; exact Hc).
  apply rev_involutive.
Qed.

End StripFacts.

Import FileHandler.

(** The replacement loop of [sanitize_filename] replaces every forbidden
    character by an underscore, which is not forbidden itself. *)
Lemma replace_loop_map (bad name : str) :
  char_in 95 bad = false ->
  fold_left (fun name ch => replace_char ch (lit "_") name) bad name
  = map (fun c => if char_in c bad then 95 else c) name.
Proof.
  revert name. induction bad as [|ch bad IH]; intros name Hbad; simpl.
  - symmetry. apply map_id.
  - simpl in Hbad. apply orb_false_iff in Hbad. destruct Hbad as [Hch Hbad].
    rewrite (IH _ Hbad).
    assert (Hrep : replace_char ch (lit "_") name
                   = map (fun c => if c =? ch then 95 else c) name).
    { unfold replace_char. induction name as [|c name IHn]; simpl;
        [reflexivity|].
      rewrite IHn. destruct (c =? ch); reflexivity. }
    rewrite Hrep, map_map. apply map_ext. intros c.
    destruct (Z.eqb_spec c ch) as [->|Hne]; simpl.
    + rewrite Hbad. reflexivity.
    + reflexivity.
Qed.

(** The three facts about the result of [sanitize_filename]. *)
Lemma sanitize_filename_facts (name : str) :
  let r := sanitize_filename name in
  r <> []
  /\ Forall (fun c => char_in c bad_chars = false) r
  /\ (forall c, hd_error r = Some c \/ hd_error (rev r) = Some c ->
                char_in c (lit " .") = false).
Proof.
  unfold sanitize_filename. cbv zeta.
  rewrite (replace_loop_map bad_chars name eq_refl).
  set (m := map (fun c => if char_in c bad_chars then 95 else c) name).
  assert (Hm : Forall (fun c => char_in c bad_chars = false) m).
  { unfold m. rewrite Forall_map. rewrite Forall_forall. intros c _.
    destruct (char_in c bad_chars) eqn:E; [reflexivity | exact E]. }
  destruct (strip (lit " .") m) as [|c r] eqn:E; simpl negb; cbv iota.
  - split; [discriminate|]. split.
    + repeat constructor.
    + intros c [H|H]; vm_compute in H; injection H as <-; reflexivity.
  - split; [discriminate|]. split.
    + rewrite <- E. apply strip_forall, Hm.
    + intros d Hd. rewrite <- E in Hd. apply (strip_ends _ m d Hd).
Qed.

Lemma sanitize_filename_fixed (name : str) :
  name <> [] ->
  Forall (fun c => char_in c bad_chars = false) name ->
  (forall c, hd_error name = Some c \/ hd_error (rev name) = Some c ->
             char_in c (lit " .") = false) ->
  sanitize_filename name = name.
Proof.
  intros Hne Hbad Hends. unfold sanitize_filename. cbv zeta.
  rewrite (replace_loop_map bad_chars name eq_refl).
  assert (Hmap : map (fun c => if char_in c bad_chars then 95 else c) name
                 = name).
  { rewrite <- (map_id name) at 2. apply map_ext_in. intros c Hc.
    rewrite Forall_forall in Hbad. rewrite (Hbad c Hc). reflexivity. }
  rewrite Hmap, (strip_fixed _ name Hends).
  destruct name; [contradiction | reflexivity].
Qed.

(** X21: the result of [sanitize_filename] is never empty, contains none of
    the nine forbidden characters, and neither starts nor ends with a space
    or a dot. *)
Theorem sanitize_filename_safe (name : str) :
  sanitize_filename name <> []
  /\ Forall (fun c => char_in c bad_chars = false) (sanitize_filename name)
  /\ (forall c,
        hd_error (sanitize_filename name) = Some c
        \/ hd_error (rev (sanitize_filename name)) = Some c ->
        c <> 32 /\ c <> 46).
Proof.
  destruct (sanitize_filename_facts name) as [Hne [Hbad Hends]].
  split; [exact Hne|]. split; [exact Hbad|].
  intros c Hc. specialize (Hends c Hc).
  split; intros ->; discriminate Hends.
Qed.

(** X22: [sanitize_filename] changes nothing the second time, and leaves
    alone a non-empty name that has no forbidden character and no space or
    dot at either end. *)
Theorem sanitize_filename_idempotent (name : str) :
  sanitize_filename (sanitize_filename name) = sanitize_filename name
  /\ (name <> [] ->
      Forall (fun c => char_in c bad_chars = false) name ->
      (forall c, hd_error name = Some c \/ hd_error (rev name) = Some c ->
                 c <> 32 /\ c <> 46) ->
      sanitize_filename name = name).
Proof.
  split.
  - destruct (sanitize_filename_facts name) as [Hne [Hbad Hends]].
    apply sanitize_filename_fixed; assumption.
  - intros Hne Hbad Hends. apply sanitize_filename_fixed; try assumption.
    intros c Hc. destruct (Hends c Hc) as [H32 H46].
    simpl. destruct (Z.eqb_spec c 32); [contradiction|].
    destruct (Z.eqb_spec c 46); [contradiction | reflexivity].
Qed.

Lemma sanitize_filename_idempotent_witness :
  sanitize_filename (lit " my:file?.txt ") = lit "my_file_.txt"
  /\ sanitize_filename (lit "my_file_.txt") = lit "my_file_.txt".
Proof.
  split; [reflexivity|].
  apply (proj2 (sanitize_filename_idempotent (lit "my_file_.txt"))).
  - discriminate.
  - repeat constructor.
  - intros c [H|H]; vm_compute in H; injection H as <-; split; discriminate.
Defined.

Lemma startswith_app (p s : str) : startswith (p ++ s) p = true.
Proof.
  induction p as [|c p IH]; simpl; [destruct s; reflexivity|].
  rewrite Z.eqb_refl. exact IH.
Qed.

Lemma endswith_app (s e : str) : endswith (s ++ e) e = true.
Proof. unfold endswith. rewrite rev_app_distr. apply startswith_app. Qed.

(** The second step of [ensure_file_extension], for any suffix. *)
Lemma append_suffix_once (filename e : str) :
  let r := if negb (endswith filename e) then filename ++ e else filename in
  endswith r e = true
  /\ (endswith filename e = true -> r = filename)
  /\ (if negb (endswith r e) then r ++ e else r) = r.
Proof.
  cbv zeta. destruct (endswith filename e) eqn:Ee; simpl negb; cbv iota.
  - split; [exact Ee|]. split; [reflexivity|]. rewrite Ee. reflexivity.
  - split; [apply endswith_app|]. split; [discriminate|].
    rewrite endswith_app. reflexivity.
Qed.

(** X23: [ensure_file_extension] returns a name that ends with the
    extension written with its dot; a name that already ends with it is
    returned unchanged, so applying the function twice changes nothing
    more. *)
Theorem ensure_file_extension_ends (filename ext : str) :
  let dotted := if startswith ext (lit ".") then ext else lit "." ++ ext in
  startswith dotted (lit ".") = true
  /\ endswith (ensure_file_extension filename ext) dotted = true
  /\ (endswith filename dotted = true ->
      ensure_file_extension filename ext = filename)
  /\ ensure_file_extension (ensure_file_extension filename ext) ext
     = ensure_file_extension filename ext.
Proof.
  cbv zeta. unfold ensure_file_extension. cbv zeta.
  destruct (startswith ext (lit ".")) eqn:Es; simpl negb; cbv iota.
  - split; [exact Es|]. exact (append_suffix_once filename ext).
  - split; [apply startswith_app|].
    exact (append_suffix_once filename (lit "." ++ ext)).
Qed.
